(** * sponsorsme: the paginated sponsor lookup and its cache

    A shallow embedding of [src/index.ts] and [src/utils.ts].

    - The class [Sponsors] becomes a record of its five private fields; every
      method is a function from the record to the record (and a result).
    - [this.cached], a JS object used as a dictionary from login to
      [Sponsorship], is a [gmap string Sponsorship] of its own properties,
      on top of the properties every plain object inherits from
      [Object.prototype]: the [in] operator and the property read of [find]
      see both. A login that the source issues is taken not to be
      [__proto__], the one inherited name that an assignment does not turn
      into an own property.
    - The responses of the transport have the type [QueryResult] that the
      code casts them to; on such a response decoding does not throw.
    - [octo.graphql], the transport, is a function from the query document
      and the request parameters to a page or to a rejection ([None]).
    - [await] is a plain call: one traversal runs at a time.
    - The [while] loop of [find] recurses on a fuel; a run that uses its fuel
      up is [Diverged], and results are stated for runs that are not.
    - Every run carries the list of requests it sent to the transport. *)

From stdpp Require Import gmap strings list fin_maps.

Open Scope string_scope.

(** ** utils.ts *)

(** [Optional<T> = T | null]. *)
Abbreviation Optional := option.

(** [withdefault(fallback, value)]: the fallback when the value is [null] or
    [undefined]. *)
Definition withdefault {T : Type} (fallback : T) (value : option T) : T :=
  match value with
  | None => fallback
  | Some v => v
  end.

(** ** Types of index.ts *)

Record SponsorshipSponsor := {
  login : string;
  email : option string;
}.

Record SponsorshipTier := {
  tier_id : string;
  tier_createdAt : string;
  name : string;
  description : string;
  monthlyPriceInCents : Z;
}.

Record Sponsorship := {
  id : string;
  createdAt : string;
  sponsor : SponsorshipSponsor;
  public : bool;
  tier : SponsorshipTier;
}.

Record SponsorsOptions := {
  opt_cache : option bool;
  opt_token : string;
}.

(** The sponsor entity of an edge. The query selects [login] and the two
    e-mail aliases inside the [User] and [Organization] fragments only, and
    [sponsorshipFromEdge] tests the login against [null] and [undefined], so
    the three fields are optional here. *)
Record SponsorEntity := {
  typename : string;
  entity_login : option string;
  userEmail : option string;
  orgEmail : option string;
}.

Record QueryResultTier := {
  qt_id : string;
  qt_name : string;
  qt_createdAt : string;
  qt_description : string;
  qt_monthlyPriceInCents : Z;
}.

Record QueryResultNode := {
  node_id : string;
  node_createdAt : string;
  privacyLevel : string;
  node_tier : QueryResultTier;
  sponsorEntity : option SponsorEntity;
}.

Record QueryResultEdge := {
  edge_cursor : string;
  node : QueryResultNode;
}.

Record PageInfo := {
  pi_hasNextPage : bool;
  endCursor : string;
}.

(** [QueryResult], with [viewer.sponsorshipsAsMaintainer] flattened. *)
Record QueryResult := {
  pageInfo : PageInfo;
  edges : list QueryResultEdge;
}.

(** [RequestParameters] as [find] builds them. *)
Record RequestParameters := {
  rp_cursor : option string;
  rp_authorization : string;
}.

(** The transport [octo.graphql(document, params)]: a page, or [None] when
    the promise rejects. *)
Definition Transport := string → RequestParameters → option QueryResult.

(** ** The client *)

Record Sponsors := {
  token : string;
  options_cache : bool;
  cached : gmap string Sponsorship;
  cursor : option string;
  hasNextPage : bool;
}.

(** [new Sponsors(opts)]. *)
Definition new (opts : SponsorsOptions) : Sponsors :=
  {| token := opt_token opts;
     options_cache := withdefault true (opt_cache opts);
     cached := ∅;
     cursor := None;
     hasNextPage := true |}.

(** [flush()]. *)
Definition flush (this : Sponsors) : Sponsors :=
  {| token := token this;
     options_cache := options_cache this;
     cached := ∅;
     cursor := None;
     hasNextPage := true |}.

(** JS truthiness of an optional string: present and not empty. *)
Definition truthy (v : option string) : bool :=
  match v with
  | Some s => negb (String.eqb s EmptyString)
  | None => false
  end.

(** [a || b] on optional strings. *)
Definition js_or (a b : option string) : option string :=
  if truthy a then a else b.

(** [sponsorshipFromEdge(edge)]. *)
Definition sponsorshipFromEdge (edge : QueryResultEdge) : Optional Sponsorship :=
  match sponsorEntity (node edge) ≫= entity_login with
  | None => None
  | Some sponsor_login =>
      Some {|
        id := node_id (node edge);
        createdAt := node_createdAt (node edge);
        sponsor := {|
          login := sponsor_login;
          email := js_or (sponsorEntity (node edge) ≫= orgEmail)
                         (sponsorEntity (node edge) ≫= userEmail) |};
        public := String.eqb (privacyLevel (node edge)) "PUBLIC";
        tier := {|
          tier_id := qt_id (node_tier (node edge));
          tier_createdAt := qt_createdAt (node_tier (node edge));
          name := qt_name (node_tier (node edge));
          description := qt_description (node_tier (node edge));
          monthlyPriceInCents := qt_monthlyPriceInCents (node_tier (node edge)) |};
      |}
  end.

(** The fixed query document (the template literal without its comments and
    line breaks). *)
Definition query : string :=
  "query Sponsors($cursor: String) { viewer { sponsorshipsAsMaintainer(includePrivate: true, first: 50, after: $cursor) { pageInfo { hasNextPage endCursor } edges { cursor node { id createdAt privacyLevel tier { id name createdAt description monthlyPriceInCents } sponsorEntity { __typename ... on User { login userEmail: email } ... on Organization { login orgEmail: email } } } } } } }".

(** The callback of [edges.map]: decode the edge and cache the record. *)
Definition cache_edge (c : gmap string Sponsorship) (edge : QueryResultEdge)
  : gmap string Sponsorship * Optional Sponsorship :=
  match sponsorshipFromEdge edge with
  | Some sponsorship => (<[login (sponsor sponsorship) := sponsorship]> c, Some sponsorship)
  | None => (c, None)
  end.

(** [edges.map(...)]: the decoded records in order, and the cache after the
    callback has run on every edge from left to right. *)
Fixpoint map_edges (c : gmap string Sponsorship) (es : list QueryResultEdge)
  : gmap string Sponsorship * list (Optional Sponsorship) :=
  match es with
  | [] => (c, [])
  | edge :: es' =>
      let '(c1, s) := cache_edge c edge in
      let '(c2, ss) := map_edges c1 es' in
      (c2, s :: ss)
  end.

(** [sponsorships.find((s) => s?.sponsor.login === login)]: the first record
    that is not [null] and carries the login; [None] stands for the
    [undefined] of an unsuccessful search. *)
Fixpoint array_find (target : string) (ss : list (Optional Sponsorship))
  : option Sponsorship :=
  match ss with
  | [] => None
  | Some s :: ss' =>
      if String.eqb (login (sponsor s)) target then Some s else array_find target ss'
  | None :: ss' => array_find target ss'
  end.

(** How a call ends: the promise resolves, it rejects (the transport threw),
    or the fuel of the model ran out. *)
Inductive Completion (A : Type) :=
  | Resolved (a : A)
  | Rejected
  | Diverged.
Arguments Resolved {A} a.
Arguments Rejected {A}.
Arguments Diverged {A}.

(** A run of a method: its completion, the client afterwards and the requests
    sent to the transport, oldest first. *)
Record Run (A : Type) := {
  outcome : Completion A;
  client : Sponsors;
  requests : list RequestParameters;
}.
Arguments outcome {A} _.
Arguments client {A} _.
Arguments requests {A} _.

(** One request more at the front of a run. *)
Definition after_request {A} (p : RequestParameters) (r : Run A) : Run A :=
  {| outcome := outcome r; client := client r; requests := p :: requests r |}.

(** The body of the loop from the response on: update the pagination
    state, decode and cache the edges, look for the login. *)
Definition process_page (target : string) (this : Sponsors) (result : QueryResult)
  : Sponsors * option Sponsorship :=
  let '(c, sponsorships) := map_edges (cached this) (edges result) in
  ({| token := token this;
      options_cache := options_cache this;
      cached := c;
      cursor := Some (endCursor (pageInfo result));
      hasNextPage := pi_hasNextPage (pageInfo result) |},
   array_find target sponsorships).

(** The names a plain object inherits from [Object.prototype]. *)
Definition object_prototype : list string :=
  [ "constructor"; "hasOwnProperty"; "isPrototypeOf"; "propertyIsEnumerable";
    "toLocaleString"; "toString"; "valueOf"; "__proto__";
    "__defineGetter__"; "__defineSetter__"; "__lookupGetter__"; "__lookupSetter__" ].

Definition inherited (property : string) : bool :=
  bool_decide (property ∈ object_prototype).

(** What a lookup hands back when it is not [null]: a sponsorship, or the
    value that [Object.prototype] holds under the name asked for (a
    function, or the prototype itself for [__proto__]). *)
Inductive Answer :=
  | Found (sponsorship : Sponsorship)
  | Inherited (property : string).

(** [login in this.cached]: an own property or an inherited one. *)
Definition has_property (c : gmap string Sponsorship) (property : string) : bool :=
  bool_decide (is_Some (c !! property)) || inherited property.

(** [this.cached[login]]: own properties shadow the inherited ones; [None]
    stands for [undefined]. *)
Definition get_property (c : gmap string Sponsorship) (property : string)
  : option Answer :=
  match c !! property with
  | Some sponsorship => Some (Found sponsorship)
  | None => if inherited property then Some (Inherited property) else None
  end.

(** The parameters of the next request: the current cursor and the token. *)
Definition params_of (this : Sponsors) : RequestParameters :=
  {| rp_cursor := cursor this; rp_authorization := token this |}.

(** [while (this.hasNextPage) { ... } return null]. *)
Fixpoint find_loop (fuel : nat) (graphql : Transport) (target : string) (this : Sponsors)
  : Run (Optional Answer) :=
  if hasNextPage this then
    match fuel with
    | O => {| outcome := Diverged; client := this; requests := [] |}
    | S fuel' =>
        let params := params_of this in
        match graphql query params with
        | None => {| outcome := Rejected; client := this; requests := [params] |}
        | Some result =>
            match process_page target this result with
            | (this', Some sponsorship) =>
                {| outcome := Resolved (Some (Found sponsorship)); client := this';
                   requests := [params] |}
            | (this', None) =>
                after_request params (find_loop fuel' graphql target this')
            end
        end
    end
  else {| outcome := Resolved None; client := this; requests := [] |}.

(** [find(login)]. *)
Definition find (fuel : nat) (graphql : Transport) (target : string) (this : Sponsors)
  : Run (Optional Answer) :=
  if has_property (cached this) target && options_cache this
  then {| outcome := Resolved (get_property (cached this) target);
          client := this; requests := [] |}
  else find_loop fuel graphql target this.

(** [getInfo(login)]. *)
Definition getInfo (fuel : nat) (graphql : Transport) (target : string) (this : Sponsors)
  : Run (Optional Answer) :=
  find fuel graphql target this.

(** [.then(f)] on a run. *)
Definition then_ {A B} (f : A → B) (r : Run A) : Run B :=
  {| outcome := match outcome r with
                | Resolved a => Resolved (f a)
                | Rejected => Rejected
                | Diverged => Diverged
                end;
     client := client r;
     requests := requests r |}.

(** [isSponsor(login)]. *)
Definition isSponsor (fuel : nat) (graphql : Transport) (target : string) (this : Sponsors)
  : Run bool :=
  then_ (λ user, bool_decide (user ≠ None)) (find fuel graphql target this).

(** ** The pages of the source *)

(** The records a page decodes to, in order. *)
Definition decode (es : list QueryResultEdge) : list Sponsorship :=
  omap sponsorshipFromEdge es.

(** The login is carried by a decoded record of the page. *)
Definition on_page (target : string) (result : QueryResult) : Prop :=
  target ∈ (login ∘ sponsor) <$> decode (edges result).

#[global] Instance on_page_dec target result : Decision (on_page target result).
Proof. unfold on_page. apply _. Defined.

(** What the callback of [edges.map] has done to the cache once it has run
    on records [ss]: one insertion each, later records overwriting. *)
Definition cache_all (c : gmap string Sponsorship) (ss : list Sponsorship)
  : gmap string Sponsorship :=
  foldl (λ c s, <[login (sponsor s) := s]> c) c ss.

(** Page [n] of the source as a client with token [tok] sees it from cursor
    [c]: follow the end cursors while the pages report a next page. [None]
    when a request on the way rejects or the source ends before page [n]. *)
Fixpoint page_at (graphql : Transport) (tok : string) (c : option string) (n : nat)
  : option QueryResult :=
  match graphql query {| rp_cursor := c; rp_authorization := tok |} with
  | None => None
  | Some result =>
      match n with
      | O => Some result
      | S n' =>
          if pi_hasNextPage (pageInfo result)
          then page_at graphql tok (Some (endCursor (pageInfo result))) n'
          else None
      end
  end.

(** The pages a run has received. *)
Definition responses (graphql : Transport) (ps : list RequestParameters)
  : list QueryResult :=
  omap (graphql query) ps.

(** The clients a program can hold: built by the constructor, then used
    through [getInfo], [isSponsor] and [flush], every call having settled. *)
Inductive reachable (graphql : Transport) (opts : SponsorsOptions) : Sponsors → Prop :=
  | reach_new : reachable graphql opts (new opts)
  | reach_getInfo fuel target this :
      reachable graphql opts this →
      outcome (getInfo fuel graphql target this) ≠ Diverged →
      reachable graphql opts (client (getInfo fuel graphql target this))
  | reach_isSponsor fuel target this :
      reachable graphql opts this →
      outcome (isSponsor fuel graphql target this) ≠ Diverged →
      reachable graphql opts (client (isSponsor fuel graphql target this))
  | reach_flush this :
      reachable graphql opts this →
      reachable graphql opts (flush this).

(** The cache-key invariant: a record is stored under its own login. *)
Definition cache_keyed (this : Sponsors) : Prop :=
  ∀ k s, cached this !! k = Some s → login (sponsor s) = k.

(** [k] pages of the source have been fetched: the client stands at the
    start, or behind page [k - 1]. *)
Definition fetched (graphql : Transport) (this : Sponsors) (k : nat) : Prop :=
  match k with
  | O => cursor this = None ∧ hasNextPage this = true
  | S j =>
      ∃ result, page_at graphql (token this) None j = Some result
        ∧ cursor this = Some (endCursor (pageInfo result))
        ∧ hasNextPage this = pi_hasNextPage (pageInfo result)
  end.

(** The cache holds the logins of the first [k] pages and no others. *)
Definition covers (graphql : Transport) (this : Sponsors) (k : nat) : Prop :=
  ∀ l, is_Some (cached this !! l) ↔
       ∃ j result, j < k ∧ page_at graphql (token this) None j = Some result
                   ∧ on_page l result.

(** The invariant of a client over a fixed source. *)
Definition consistent (graphql : Transport) (this : Sponsors) : Prop :=
  cache_keyed this ∧ ∃ k, fetched graphql this k ∧ covers graphql this k.

(** ** A source of two pages

    The scenario of the specification: page 1 carries [alice] and reports a
    next page, page 2 carries [jure] and is the last one. *)

Definition bronze : QueryResultTier :=
  {| qt_id := "T_1"; qt_name := "Bronze"; qt_createdAt := "2020-01-01T00:00:00Z";
     qt_description := "Thank you"; qt_monthlyPriceInCents := 500 |}.

Definition edge_of (c node_ident : string) (entity : option SponsorEntity)
  : QueryResultEdge :=
  {| edge_cursor := c;
     node := {| node_id := node_ident; node_createdAt := "2020-02-02T00:00:00Z";
                privacyLevel := "PUBLIC"; node_tier := bronze;
                sponsorEntity := entity |} |}.

Definition user (l : string) (mail : option string) : SponsorEntity :=
  {| typename := "User"; entity_login := Some l; userEmail := mail; orgEmail := None |}.

Definition alice_edge : QueryResultEdge :=
  edge_of "c1" "S_alice" (Some (user "alice" (Some "alice@example.com"))).

Definition jure_edge : QueryResultEdge :=
  edge_of "c2" "S_jure" (Some (user "jure" None)).

(** An edge whose sponsor entity is [null]. *)
Definition ghost_edge : QueryResultEdge := edge_of "c0" "S_ghost" None.

(** An entity that carries both e-mail fields, the organization's one empty. *)
Definition both_mails : SponsorEntity :=
  {| typename := "Organization"; entity_login := Some "acme";
     userEmail := Some "user@example.com"; orgEmail := Some EmptyString |}.

Definition page1 : QueryResult :=
  {| pageInfo := {| pi_hasNextPage := true; endCursor := "c1" |};
     edges := [ghost_edge; alice_edge] |}.

Definition page2 : QueryResult :=
  {| pageInfo := {| pi_hasNextPage := false; endCursor := "c2" |};
     edges := [jure_edge] |}.

Definition two_pages : Transport :=
  λ _ params,
    match rp_cursor params with
    | None => Some page1
    | Some c => if String.eqb c "c1" then Some page2 else None
    end.

(** A client that does not read its cache, and one that does. *)
Definition uncached_options : SponsorsOptions :=
  {| opt_cache := Some false; opt_token := "token" |}.

Definition default_options : SponsorsOptions :=
  {| opt_cache := None; opt_token := "token" |}.

(** A source of one page on which the login [jure] comes twice, under two
    sponsorship ids. *)
Definition twin_page : QueryResult :=
  {| pageInfo := {| pi_hasNextPage := false; endCursor := "c2" |};
     edges := [ edge_of "c1" "S_old" (Some (user "jure" None));
                edge_of "c2" "S_new" (Some (user "jure" None)) ] |}.

Definition twins : Transport := λ _ _, Some twin_page.

(** A source that never ends: every request is answered with page 1 of the
    example, which reports a next page. *)
Definition endless : Transport := λ _ _, Some page1.

(** The pages of a source without the edges that do not decode. *)
Definition strip (result : QueryResult) : QueryResult :=
  {| pageInfo := pageInfo result;
     edges := filter (λ edge, is_Some (sponsorshipFromEdge edge)) (edges result) |}.

Definition without_dropped (graphql : Transport) : Transport :=
  λ document params, strip <$> graphql document params.

(** Every cached record was decoded from an edge of some page of the
    source. *)
Definition sourced (graphql : Transport) (this : Sponsors) : Prop :=
  ∀ k s, cached this !! k = Some s →
         ∃ j page, page_at graphql (token this) None j = Some page
                   ∧ s ∈ decode (edges page).

(** ** Decoding and caching one page *)

Lemma map_edges_spec c es :
  map_edges c es = (cache_all c (decode es), sponsorshipFromEdge <$> es).
Proof.
  revert c. induction es as [|edge es IH]; intros c; [done|].
  cbn [map_edges]. unfold cache_edge, decode. cbn [omap list_omap fmap list_fmap].
  destruct (sponsorshipFromEdge edge) as [s|]; rewrite IH; done.
Qed.

Lemma array_find_decode target es :
  array_find target (sponsorshipFromEdge <$> es)
  = list_find (λ s, login (sponsor s) = target) (decode es) ≫= λ x, Some x.2.
Proof.
  induction es as [|edge es IH]; [done|].
  unfold decode. cbn [fmap list_fmap omap list_omap].
  destruct (sponsorshipFromEdge edge) as [s|]; cbn [array_find]; [|exact IH].
  cbn [list_find]. destruct (String.eqb_spec (login (sponsor s)) target) as [E|E].
  - rewrite decide_True by done. done.
  - rewrite decide_False by done. rewrite IH. fold (decode es).
    destruct (list_find _ (decode es)) as [[i x]|]; done.
Qed.

Lemma array_find_Some target es s :
  array_find target (sponsorshipFromEdge <$> es) = Some s →
  login (sponsor s) = target ∧ s ∈ decode es.
Proof.
  rewrite array_find_decode.
  destruct (list_find _ (decode es)) as [[i x]|] eqn:E; [|done].
  cbn. intros [= <-]. apply list_find_Some in E as (Hi & Hx & _).
  split; [done|]. by eapply list_elem_of_lookup_2.
Qed.

Lemma array_find_None target result :
  array_find target (sponsorshipFromEdge <$> edges result) = None ↔
  ¬ on_page target result.
Proof.
  rewrite array_find_decode. unfold on_page.
  destruct (list_find _ (decode (edges result))) as [[i x]|] eqn:E; cbn.
  - apply list_find_Some in E as (Hi & Hx & _). split; [done|].
    intros H. destruct H. apply list_elem_of_fmap. exists x.
    split; [done|]. by eapply list_elem_of_lookup_2.
  - split; [|done]. intros _ H. apply list_elem_of_fmap in H as (x & Hx & Hin).
    eapply list_find_None in E. rewrite Forall_forall in E.
    by apply (E x Hin).
Qed.

Lemma cache_all_snoc c ss s :
  cache_all c (ss ++ [s]) = <[login (sponsor s) := s]> (cache_all c ss).
Proof. unfold cache_all. by rewrite foldl_app. Qed.

Lemma cache_all_lookup_Some c ss k s :
  cache_all c ss !! k = Some s →
  (s ∈ ss ∧ login (sponsor s) = k) ∨ c !! k = Some s.
Proof.
  induction ss as [|x ss IH] using rev_ind; [by right|].
  rewrite cache_all_snoc. destruct (decide (login (sponsor x) = k)) as [<-|Hne].
  - rewrite lookup_insert_eq. intros [= <-]. left. split; [|done].
    apply elem_of_app. right. by apply list_elem_of_singleton.
  - rewrite lookup_insert_ne by done. intros H.
    destruct (IH H) as [[Hin Hk]|Hc]; [left|by right].
    split; [|done]. apply elem_of_app. by left.
Qed.

Lemma cache_all_is_Some c ss k :
  is_Some (cache_all c ss !! k) ↔
  k ∈ (login ∘ sponsor) <$> ss ∨ is_Some (c !! k).
Proof.
  induction ss as [|x ss IH] using rev_ind.
  - cbn. split; [by right|]. intros [H|H]; [|done]. by apply elem_of_nil in H.
  - rewrite cache_all_snoc, fmap_app, elem_of_app. cbn.
    rewrite list_elem_of_singleton.
    destruct (decide (login (sponsor x) = k)) as [<-|Hne].
    + rewrite lookup_insert_eq. split; [|by eauto]. intros _. left. by right.
    + rewrite lookup_insert_ne by done. rewrite IH. split.
      * intros [H|H]; [left; by left|by right].
      * intros [[H|H]|H]; [by left|by subst|by right].
Qed.

Lemma process_page_spec target this result :
  process_page target this result =
  ({| token := token this;
      options_cache := options_cache this;
      cached := cache_all (cached this) (decode (edges result));
      cursor := Some (endCursor (pageInfo result));
      hasNextPage := pi_hasNextPage (pageInfo result) |},
   array_find target (sponsorshipFromEdge <$> edges result)).
Proof. unfold process_page. by rewrite map_edges_spec. Qed.

Lemma process_page_pagination target this result :
  hasNextPage (process_page target this result).1 = pi_hasNextPage (pageInfo result)
  ∧ cursor (process_page target this result).1 = Some (endCursor (pageInfo result)).
Proof. by rewrite process_page_spec. Qed.

Lemma process_page_keyed target this result :
  cache_keyed this → cache_keyed (process_page target this result).1.
Proof.
  rewrite process_page_spec. unfold cache_keyed. cbn. intros Hk k s H.
  apply cache_all_lookup_Some in H as [[_ H]|H]; [done|]. by eapply Hk.
Qed.

(** ** The pagination loop *)

Section Loop.
Variable graphql : Transport.
Variable target : string.

Lemma find_loop_exhausted fuel this :
  hasNextPage this = false →
  find_loop fuel graphql target this
  = {| outcome := Resolved None; client := this; requests := [] |}.
Proof. intros H. destruct fuel; cbn; by rewrite H. Qed.

Lemma find_loop_rejected fuel this :
  hasNextPage this = true →
  graphql query (params_of this) = None →
  find_loop (S fuel) graphql target this
  = {| outcome := Rejected; client := this; requests := [params_of this] |}.
Proof. intros H E. cbn. by rewrite H, E. Qed.

Lemma find_loop_found fuel this result s :
  hasNextPage this = true →
  graphql query (params_of this) = Some result →
  (process_page target this result).2 = Some s →
  find_loop (S fuel) graphql target this
  = {| outcome := Resolved (Some (Found s));
       client := (process_page target this result).1;
       requests := [params_of this] |}.
Proof.
  intros H E F. cbn [find_loop]. rewrite H, E.
  destruct (process_page target this result) as [this' o]. cbn in F. by subst o.
Qed.

Lemma find_loop_next fuel this result :
  hasNextPage this = true →
  graphql query (params_of this) = Some result →
  (process_page target this result).2 = None →
  find_loop (S fuel) graphql target this
  = after_request (params_of this)
      (find_loop fuel graphql target (process_page target this result).1).
Proof.
  intros H E F. cbn [find_loop]. rewrite H, E.
  destruct (process_page target this result) as [this' o]. cbn in F. by subst o.
Qed.

(** The four ways an iteration can go. *)
Lemma find_loop_cases fuel this :
  (hasNextPage this = false
    ∧ find_loop fuel graphql target this
      = {| outcome := Resolved None; client := this; requests := [] |})
  ∨ (hasNextPage this = true ∧ fuel = 0
    ∧ find_loop fuel graphql target this
      = {| outcome := Diverged; client := this; requests := [] |})
  ∨ (hasNextPage this = true ∧ graphql query (params_of this) = None
    ∧ find_loop fuel graphql target this
      = {| outcome := Rejected; client := this; requests := [params_of this] |})
  ∨ (∃ result s, hasNextPage this = true
    ∧ graphql query (params_of this) = Some result
    ∧ (process_page target this result).2 = Some s
    ∧ find_loop fuel graphql target this
      = {| outcome := Resolved (Some (Found s));
           client := (process_page target this result).1;
           requests := [params_of this] |})
  ∨ (∃ result fuel', hasNextPage this = true ∧ fuel = S fuel'
    ∧ graphql query (params_of this) = Some result
    ∧ (process_page target this result).2 = None
    ∧ find_loop fuel graphql target this
      = after_request (params_of this)
          (find_loop fuel' graphql target (process_page target this result).1)).
Proof.
  destruct (hasNextPage this) eqn:H.
  2:{ left. split; [done|]. by apply find_loop_exhausted. }
  right. destruct fuel as [|fuel'].
  { left. cbn. by rewrite H. }
  right. destruct (graphql query (params_of this)) as [result|] eqn:E.
  2:{ left. split_and!; [done..|]. by apply find_loop_rejected. }
  right. destruct (process_page target this result).2 as [s|] eqn:F.
  - left. exists result, s. split_and!; [done..|]. by apply find_loop_found.
  - right. exists result, fuel'. split_and!; [done..|]. by apply find_loop_next.
Qed.

End Loop.

(** Case analysis on the iteration that the goal's [find_loop] starts with. *)
Ltac loop_cases this :=
  match goal with
  | |- context [find_loop ?fuel ?g ?t this] =>
      destruct (find_loop_cases g t fuel this)
        as [[H E]|[(H & Hf & E)|[(H & G & E)
             |[(r & s & H & G & F & E)|(r & f & H & Hf & G & F & E)]]]];
      try discriminate Hf
  end.

Section LoopState.
Variable graphql : Transport.
Variable target : string.

(** A loop that settled settles the same way on more fuel. *)
Lemma find_loop_more_fuel fuel extra this :
  outcome (find_loop fuel graphql target this) ≠ Diverged →
  find_loop (fuel + extra) graphql target this = find_loop fuel graphql target this.
Proof.
  revert this. induction fuel as [|fuel IH]; intros this Hd.
  - destruct (find_loop_cases graphql target 0 this)
      as [[H E]|[(H & _ & E)|[(H & G & E)|[(r & s & H & G & F & E)|(r & f & H & Hf & _)]]]];
      try discriminate Hf.
    + by rewrite E, find_loop_exhausted.
    + by rewrite E in Hd.
    + cbn in E. by rewrite H in E.
    + cbn in E. by rewrite H in E.
  - destruct (find_loop_cases graphql target (S fuel) this)
      as [[H E]|[(H & Hf & _)|[(H & G & E)|[(r & s & H & G & F & E)|(r & f & H & Hf & G & F & E)]]]];
      try discriminate Hf.
    + by rewrite E, find_loop_exhausted.
    + rewrite E. by apply find_loop_rejected.
    + rewrite E. cbn [Nat.add]. by eapply find_loop_found.
    + injection Hf as <-. rewrite E in Hd |- *. cbn [Nat.add].
      rewrite (find_loop_next graphql target _ _ r) by done. f_equal. by apply IH.
Qed.

Lemma find_loop_token fuel this :
  token (client (find_loop fuel graphql target this)) = token this
  ∧ options_cache (client (find_loop fuel graphql target this)) = options_cache this.
Proof.
  revert this. induction fuel as [|fuel IH]; intros this;
    loop_cases this; rewrite E; cbn; try done.
  - by rewrite process_page_spec.
  - by rewrite process_page_spec.
  - injection Hf as <-. destruct (IH (process_page target this r).1) as [-> ->].
    by rewrite process_page_spec.
Qed.

Lemma find_loop_keyed fuel this :
  cache_keyed this → cache_keyed (client (find_loop fuel graphql target this)).
Proof.
  revert this. induction fuel as [|fuel IH]; intros this Hk;
    loop_cases this; rewrite E; cbn; try done.
  - by apply process_page_keyed.
  - by apply process_page_keyed.
  - injection Hf as <-. apply IH. by apply process_page_keyed.
Qed.
End LoopState.

(** ** The chain of pages *)

Section Pages.
Variable graphql : Transport.
Variable tok : string.

Lemma page_at_0 c :
  page_at graphql tok c 0
  = graphql query {| rp_cursor := c; rp_authorization := tok |}.
Proof. cbn. by destruct (graphql query _). Qed.

Lemma page_at_inv c n result :
  page_at graphql tok c n = Some result →
  ∃ first, graphql query {| rp_cursor := c; rp_authorization := tok |} = Some first
    ∧ match n with
      | O => first = result
      | S n' => pi_hasNextPage (pageInfo first) = true
                ∧ page_at graphql tok (Some (endCursor (pageInfo first))) n' = Some result
      end.
Proof.
  destruct n as [|n']; cbn;
    destruct (graphql query {| rp_cursor := c; rp_authorization := tok |})
      as [first|]; try done; intros Hp; exists first; split; try done.
  - congruence.
  - by destruct (pi_hasNextPage (pageInfo first)).
Qed.

(** Behind page [j], which reports a next page, the chain goes on from
    that page's end cursor. *)
Lemma page_at_add c j n result :
  page_at graphql tok c j = Some result →
  pi_hasNextPage (pageInfo result) = true →
  page_at graphql tok c (S j + n)
  = page_at graphql tok (Some (endCursor (pageInfo result))) n.
Proof.
  revert c. induction j as [|j IH]; intros c Hj Hn.
  - rewrite page_at_0 in Hj. cbn. by rewrite Hj, Hn.
  - cbn in Hj |- *.
    destruct (graphql query {| rp_cursor := c; rp_authorization := tok |})
      as [first|]; [|done].
    destruct (pi_hasNextPage (pageInfo first)); [|done].
    by apply IH.
Qed.

(** Every page before a page of the chain is there and reports a next
    page. *)
Lemma page_at_before c j n result :
  page_at graphql tok c n = Some result →
  j < n →
  ∃ earlier, page_at graphql tok c j = Some earlier
             ∧ pi_hasNextPage (pageInfo earlier) = true.
Proof.
  revert c j. induction n as [|n IH]; intros c j Hn Hlt; [lia|].
  cbn in Hn.
  destruct (graphql query {| rp_cursor := c; rp_authorization := tok |})
    as [first|] eqn:E; [|done].
  destruct (pi_hasNextPage (pageInfo first)) eqn:Hf; [|done].
  destruct j as [|j].
  - exists first. by rewrite page_at_0.
  - destruct (IH _ j Hn) as (earlier & He & Hh); [lia|].
    exists earlier. split; [|done]. cbn. by rewrite E, Hf.
Qed.
End Pages.

Section Position.
Variable graphql : Transport.

(** From a client that stands behind [k] pages and has a next page, page
    [k + n] of the source is page [n] from the client's cursor. *)
Lemma page_at_from_position this k n :
  fetched graphql this k →
  hasNextPage this = true →
  page_at graphql (token this) None (k + n)
  = page_at graphql (token this) (cursor this) n.
Proof.
  destruct k as [|j]; cbn [fetched].
  - by intros [-> _] _.
  - intros (result & Hp & -> & Hh) Hn. rewrite Hn in Hh.
    by apply page_at_add.
Qed.

(** A client cannot stand behind more pages than the source has. *)
Lemma fetched_within this k n result :
  fetched graphql this k →
  hasNextPage this = true →
  page_at graphql (token this) None n = Some result →
  pi_hasNextPage (pageInfo result) = false →
  (k ≤ n)%nat.
Proof.
  intros Hf Hn Hp Hlast. destruct k as [|j]; [lia|].
  destruct Hf as (behind & Hb & _ & Hh). rewrite Hn in Hh.
  destruct (decide (j < n)) as [|Hge]; [lia|].
  destruct (decide (j = n)) as [->|Hne]; [congruence|].
  destruct (page_at_before graphql (token this) None n j behind Hb) as (e & He & Het);
    [lia|congruence].
Qed.

Lemma process_page_fetched target this k result :
  fetched graphql this k →
  hasNextPage this = true →
  graphql query (params_of this) = Some result →
  fetched graphql (process_page target this result).1 (S k).
Proof.
  intros Hf Hn E. rewrite process_page_spec. cbn. exists result.
  split; [|done]. rewrite <- (Nat.add_0_r k).
  rewrite (page_at_from_position this k 0 Hf Hn). by rewrite page_at_0.
Qed.

Lemma process_page_covers target this k result :
  fetched graphql this k →
  hasNextPage this = true →
  graphql query (params_of this) = Some result →
  covers graphql this k →
  covers graphql (process_page target this result).1 (S k).
Proof.
  intros Hf Hn E Hc l.
  assert (page_at graphql (token this) None k = Some result) as Hk.
  { rewrite <- (Nat.add_0_r k).
    rewrite (page_at_from_position this k 0 Hf Hn). by rewrite page_at_0. }
  rewrite process_page_spec. cbn. rewrite cache_all_is_Some, (Hc l). split.
  - intros [Hon|(j & r & Hj & Hp & Hon)].
    + exists k, result. split_and!; [lia|done..].
    + exists j, r. split_and!; [lia|done..].
  - intros (j & r & Hj & Hp & Hon). destruct (decide (j = k)) as [->|Hne].
    + left. rewrite Hk in Hp. by injection Hp as <-.
    + right. exists j, r. split_and!; [lia|done..].
Qed.

Lemma find_loop_position target fuel this k :
  fetched graphql this k → covers graphql this k →
  ∃ k', fetched graphql (client (find_loop fuel graphql target this)) k'
        ∧ covers graphql (client (find_loop fuel graphql target this)) k'.
Proof.
  revert this k. induction fuel as [|fuel IH]; intros this k Hk Hc;
    loop_cases this; rewrite E; cbn;
    eauto using process_page_fetched, process_page_covers.
  injection Hf as <-.
  eapply IH; eauto using process_page_fetched, process_page_covers.
Qed.
End Position.

(** ** What a traversal returns *)

Section Traversal.
Variable graphql : Transport.
Variable target : string.

(** The login is on page [n] ahead of the cursor: the loop resolves to a
    record with that login, on [n + 1] iterations at most. *)
Lemma find_loop_finds n this result :
  hasNextPage this = true →
  page_at graphql (token this) (cursor this) n = Some result →
  on_page target result →
  ∃ s, outcome (find_loop (S n) graphql target this) = Resolved (Some (Found s))
       ∧ login (sponsor s) = target.
Proof.
  revert this. induction n as [|n IH]; intros this Hn Hp Hon;
    apply page_at_inv in Hp as (first & Hfirst & Hrest);
    loop_cases this; try congruence; try (unfold params_of in G; congruence); rewrite E; cbn.
  - exists s. split; [done|]. rewrite process_page_spec in F.
    by apply array_find_Some in F as [? _].
  - subst first. rewrite process_page_spec in F. cbn in F.
    unfold params_of in G. rewrite Hfirst in G. injection G as <-.
    by apply array_find_None in F.
  - exists s. split; [done|]. rewrite process_page_spec in F.
    by apply array_find_Some in F as [? _].
  - injection Hf as <-. destruct Hrest as [Hnext Hrest].
    unfold params_of in G. rewrite Hfirst in G. injection G as <-.
    apply IH; try rewrite process_page_spec; cbn; done.
Qed.

(** The login is on none of the pages ahead and page [n] is the last one:
    the loop resolves to [null] after [n + 1] requests. *)
Lemma find_loop_exhausts n this result :
  hasNextPage this = true →
  page_at graphql (token this) (cursor this) n = Some result →
  pi_hasNextPage (pageInfo result) = false →
  (∀ j r, page_at graphql (token this) (cursor this) j = Some r → ¬ on_page target r) →
  outcome (find_loop (S n) graphql target this) = Resolved None
  ∧ hasNextPage (client (find_loop (S n) graphql target this)) = false
  ∧ length (requests (find_loop (S n) graphql target this)) = S n.
Proof.
  revert this. induction n as [|n IH]; intros this Hn Hp Hlast Hnone;
    pose proof Hp as Hp0;
    apply page_at_inv in Hp as (first & Hfirst & Hrest);
    loop_cases this; try congruence; try (unfold params_of in G; congruence); rewrite E; cbn;
    unfold params_of in G; rewrite Hfirst in G; injection G as <-.
  - rewrite process_page_spec in F. apply array_find_Some in F as [<- Hin].
    destruct (Hnone 0 first); [by rewrite page_at_0|].
    by apply (list_elem_of_fmap_2 (login ∘ sponsor)).
  - subst first. injection Hf as <-.
    rewrite find_loop_exhausted by (by rewrite process_page_spec).
    by rewrite process_page_spec.
  - rewrite process_page_spec in F. apply array_find_Some in F as [<- Hin].
    destruct (Hnone 0 first); [by rewrite page_at_0|].
    by apply (list_elem_of_fmap_2 (login ∘ sponsor)).
  - injection Hf as <-. destruct Hrest as [Hnext Hrest].
    destruct (IH (process_page target this first).1) as (Ho & Hh & Hl);
      try (rewrite process_page_spec; cbn; done); [done| |].
    + rewrite process_page_spec. cbn. intros j r Hj.
      apply (Hnone (S j)).
      rewrite <- Hj. apply (page_at_add graphql (token this) (cursor this) 0 j first);
        [by rewrite page_at_0|done].
    + by rewrite Ho, Hh, Hl.
Qed.

(** A fetched page that carries the login is the last page fetched. *)
Lemma find_loop_stops fuel this i page :
  responses graphql (requests (find_loop fuel graphql target this)) !! i = Some page →
  on_page target page →
  S i = length (responses graphql (requests (find_loop fuel graphql target this))).
Proof.
  revert this i. induction fuel as [|fuel IH]; intros this i;
    loop_cases this; rewrite E; unfold responses; cbn; try done;
    rewrite G; cbn; try done.
  - by destruct i.
  - by destruct i.
  - injection Hf as <-. rewrite process_page_spec in F. cbn in F.
    apply array_find_None in F. destruct i as [|i]; cbn.
    + by intros [= <-].
    + intros Hi Hon. f_equal. by eapply IH.
Qed.

(** The pagination state after a loop is that of the last page it got, or
    untouched when it got none. *)
Lemma find_loop_pagination fuel this :
  match last (responses graphql (requests (find_loop fuel graphql target this))) with
  | Some r =>
      hasNextPage (client (find_loop fuel graphql target this))
      = pi_hasNextPage (pageInfo r)
      ∧ cursor (client (find_loop fuel graphql target this))
        = Some (endCursor (pageInfo r))
  | None =>
      hasNextPage (client (find_loop fuel graphql target this)) = hasNextPage this
      ∧ cursor (client (find_loop fuel graphql target this)) = cursor this
  end.
Proof.
  revert this. induction fuel as [|fuel IH]; intros this;
    loop_cases this; rewrite E; unfold responses; cbn; try done;
    rewrite G; cbn; try done; try (by rewrite process_page_spec).
  injection Hf as <-. rewrite last_cons.
  specialize (IH (process_page target this r).1). unfold responses in IH.
  destruct (last _); cbn; [done|]. destruct IH as [-> ->].
  apply process_page_pagination.
Qed.
End Traversal.

(** ** The cache object and its inherited properties *)

Lemma has_property_false c property :
  has_property c property = false ↔ c !! property = None ∧ inherited property = false.
Proof.
  unfold has_property. rewrite orb_false_iff, bool_decide_eq_false.
  by rewrite <- eq_None_not_Some.
Qed.

Lemma has_property_get c property :
  has_property c property = true → ∃ answer, get_property c property = Some answer.
Proof.
  unfold has_property, get_property. destruct (c !! property) as [s|]; [by eauto|].
  rewrite orb_true_iff, bool_decide_eq_true. intros [[? [=]]| ->]. by eauto.
Qed.

Lemma get_property_own c property s :
  c !! property = Some s →
  get_property c property = Some (Found s) ∧ has_property c property = true.
Proof.
  intros Hc. unfold get_property, has_property. rewrite Hc. split; [done|].
  by rewrite bool_decide_eq_true_2 by eauto.
Qed.

(** What the property read gives: an own record, or the inherited value of
    a name that no own property shadows. *)
Lemma get_property_cases c property answer :
  get_property c property = Some answer →
  (∃ s, answer = Found s ∧ c !! property = Some s)
  ∨ (answer = Inherited property ∧ c !! property = None ∧ inherited property = true).
Proof.
  unfold get_property. destruct (c !! property) as [s|].
  - intros [= <-]. left. by exists s.
  - destruct (inherited property); [|done]. intros [= <-]. by right.
Qed.

(** ** The public methods *)

Section Methods.
Variable graphql : Transport.

(** [find] answers from the cache object or runs the loop. *)
Lemma find_cases fuel target this :
  (∃ answer, options_cache this = true
       ∧ get_property (cached this) target = Some answer
       ∧ find fuel graphql target this
         = {| outcome := Resolved (Some answer); client := this; requests := [] |})
  ∨ ((options_cache this = false ∨ has_property (cached this) target = false)
     ∧ find fuel graphql target this = find_loop fuel graphql target this).
Proof.
  unfold find. destruct (has_property (cached this) target) eqn:Hin; [|right; by auto].
  destruct (options_cache this) eqn:Ho; [left|right; by auto].
  destruct (has_property_get _ _ Hin) as [answer Hget].
  exists answer. by rewrite Hget.
Qed.

Lemma isSponsor_client fuel target this :
  client (isSponsor fuel graphql target this) = client (find fuel graphql target this)
  ∧ requests (isSponsor fuel graphql target this)
    = requests (find fuel graphql target this).
Proof. done. Qed.

Lemma find_keyed fuel target this :
  cache_keyed this → cache_keyed (client (find fuel graphql target this)).
Proof.
  intros Hk. destruct (find_cases fuel target this) as [(hit & _ & _ & ->)|[_ ->]];
    [done|]. by apply find_loop_keyed.
Qed.

Lemma find_token fuel target this :
  token (client (find fuel graphql target this)) = token this
  ∧ options_cache (client (find fuel graphql target this)) = options_cache this.
Proof.
  destruct (find_cases fuel target this) as [(hit & _ & _ & ->)|[_ ->]];
    [done|]. by apply find_loop_token.
Qed.

Lemma find_consistent fuel target this :
  consistent graphql this → consistent graphql (client (find fuel graphql target this)).
Proof.
  intros (Hk & k & Hf & Hc).
  destruct (find_cases fuel target this) as [(hit & _ & _ & ->)|[_ ->]].
  - split; [done|]. by exists k.
  - split; [by apply find_loop_keyed|]. by eapply find_loop_position.
Qed.

Lemma new_consistent opts : consistent graphql (new opts).
Proof.
  split; [intros k s; cbn; by rewrite lookup_empty|].
  exists 0. split; [done|]. intros l. cbn. rewrite lookup_empty. split.
  - by intros [? ?].
  - intros (j & _ & Hj & _). lia.
Qed.

Lemma flush_consistent this : consistent graphql (flush this).
Proof.
  split; [intros k s; cbn; by rewrite lookup_empty|].
  exists 0. split; [done|]. intros l. cbn. rewrite lookup_empty. split.
  - by intros [? ?].
  - intros (j & _ & Hj & _). lia.
Qed.

(** Every client a program can hold is consistent with the source and
    keeps the token and the cache option it was built with. *)
Lemma reachable_consistent opts this :
  reachable graphql opts this →
  consistent graphql this
  ∧ token this = opt_token opts
  ∧ options_cache this = withdefault true (opt_cache opts).
Proof.
  induction 1 as [|fuel target this _ (Hc & Ht & Ho) _
                  |fuel target this _ (Hc & Ht & Ho) _
                  |this _ (Hc & Ht & Ho)].
  - split; [apply new_consistent|done].
  - unfold getInfo. destruct (find_token fuel target this) as [-> ->].
    split; [by apply find_consistent|done].
  - destruct (isSponsor_client fuel target this) as [-> _].
    destruct (find_token fuel target this) as [-> ->].
    split; [by apply find_consistent|done].
  - split; [apply flush_consistent|done].
Qed.
End Methods.

(** ** Records that do not decode, and the population of the cache *)

(** A page matters through its page info and its decoded records only. *)
Lemma process_page_decoded target this r1 r2 :
  pageInfo r1 = pageInfo r2 →
  decode (edges r1) = decode (edges r2) →
  process_page target this r1 = process_page target this r2.
Proof.
  intros Hi Hd. by rewrite !process_page_spec, !array_find_decode, Hi, Hd.
Qed.

Lemma decode_drop before edge after :
  sponsorshipFromEdge edge = None →
  decode (before ++ edge :: after) = decode (before ++ after).
Proof.
  intros Hnone. unfold decode. rewrite !omap_app. cbn. by rewrite Hnone.
Qed.

Lemma decode_strip result : decode (edges (strip result)) = decode (edges result).
Proof.
  unfold strip, decode. cbn. induction (edges result) as [|edge es IH]; [done|].
  rewrite filter_cons. destruct (sponsorshipFromEdge edge) as [s|] eqn:E.
  - rewrite decide_True by eauto. cbn. by rewrite E, IH.
  - rewrite decide_False by (by intros [? ?]). cbn. by rewrite E.
Qed.

Lemma find_loop_strip graphql target fuel this :
  find_loop fuel (without_dropped graphql) target this
  = find_loop fuel graphql target this.
Proof.
  revert this. induction fuel as [|fuel IH]; intros this; cbn; [done|].
  unfold without_dropped at 1. destruct (graphql query (params_of this)) as [result|];
    cbn; [|done].
  rewrite (process_page_decoded target this (strip result) result);
    [|done|apply decode_strip].
  destruct (process_page target this result) as [this' [s|]]; [done|].
  by rewrite IH.
Qed.

(** A login that a list of records carries is, after they are cached, the
    key of a record with that login; so is a key that was well keyed. *)
Lemma cache_all_holds c ss k :
  k ∈ (login ∘ sponsor) <$> ss ∨ (∃ s, c !! k = Some s ∧ login (sponsor s) = k) →
  ∃ s, cache_all c ss !! k = Some s ∧ login (sponsor s) = k.
Proof.
  induction ss as [|x ss IH] using rev_ind.
  - intros [H|H]; [by apply elem_of_nil in H|done].
  - rewrite cache_all_snoc, fmap_app, elem_of_app. cbn. rewrite list_elem_of_singleton.
    destruct (decide (login (sponsor x) = k)) as [<-|Hne].
    + intros _. exists x. by rewrite lookup_insert_eq.
    + rewrite lookup_insert_ne by done. intros [[H|H]|H]; [|by subst|]; apply IH; auto.
Qed.

Section Population.
Variable graphql : Transport.
Variable target : string.

Lemma find_loop_keeps fuel this k :
  (∃ s, cached this !! k = Some s ∧ login (sponsor s) = k) →
  ∃ s, cached (client (find_loop fuel graphql target this)) !! k = Some s
       ∧ login (sponsor s) = k.
Proof.
  revert this. induction fuel as [|fuel IH]; intros this Hk;
    loop_cases this; rewrite E; cbn; try done;
    try (rewrite process_page_spec; cbn; apply cache_all_holds; by right).
  injection Hf as <-. apply IH. rewrite process_page_spec. cbn.
  apply cache_all_holds. by right.
Qed.

(** Every record decoded from a page that the loop received is in the
    cache afterwards under its login. *)
Lemma find_loop_caches fuel this page record :
  page ∈ responses graphql (requests (find_loop fuel graphql target this)) →
  record ∈ decode (edges page) →
  ∃ s, cached (client (find_loop fuel graphql target this)) !! login (sponsor record)
       = Some s
       ∧ login (sponsor s) = login (sponsor record).
Proof.
  revert this. induction fuel as [|fuel IH]; intros this;
    loop_cases this; rewrite E; unfold responses; cbn;
    try (by intros ?%elem_of_nil); rewrite G; cbn;
    try (by intros ?%elem_of_nil).
  - intros ->%list_elem_of_singleton Hin. rewrite process_page_spec. cbn.
    apply cache_all_holds. left. by apply (list_elem_of_fmap_2 (login ∘ sponsor)).
  - intros ->%list_elem_of_singleton Hin. rewrite process_page_spec. cbn.
    apply cache_all_holds. left. by apply (list_elem_of_fmap_2 (login ∘ sponsor)).
  - injection Hf as <-. intros [->|Hin]%elem_of_cons Hrec.
    + apply find_loop_keeps. rewrite process_page_spec. cbn.
      apply cache_all_holds. left. by apply (list_elem_of_fmap_2 (login ∘ sponsor)).
    + by apply IH.
Qed.
End Population.

(** ** Lookups over the whole source *)

Section Lookup.
Variable graphql : Transport.
Variable target : string.

Lemma find_hit fuel this hit :
  options_cache this = true →
  cached this !! target = Some hit →
  find fuel graphql target this
  = {| outcome := Resolved (Some (Found hit)); client := this; requests := [] |}.
Proof.
  intros Ho Hc. unfold find. destruct (get_property_own _ _ _ Hc) as [-> ->].
  by rewrite Ho.
Qed.

Lemma find_miss fuel this :
  options_cache this = false ∨ has_property (cached this) target = false →
  find fuel graphql target this = find_loop fuel graphql target this.
Proof.
  intros Hmiss. unfold find. destruct Hmiss as [-> | ->]; [|done].
  by rewrite andb_false_r.
Qed.

(** With caching enabled, a name that the cache object inherits and no own
    property shadows is answered with the inherited value. *)
Lemma find_inherited fuel this :
  options_cache this = true →
  cached this !! target = None →
  inherited target = true →
  find fuel graphql target this
  = {| outcome := Resolved (Some (Inherited target)); client := this; requests := [] |}.
Proof.
  intros Ho Hc Hi. unfold find, has_property, get_property.
  by rewrite Hc, Hi, Ho, orb_true_r.
Qed.

(** Page [n] of the source is not behind a client that has fetched [k ≤ n]
    pages: the client expects a next page, and the page is page [n - k]
    from its cursor. *)
Lemma ahead_of_position this k n result :
  fetched graphql this k →
  (k ≤ n)%nat →
  page_at graphql (token this) None n = Some result →
  hasNextPage this = true
  ∧ page_at graphql (token this) (cursor this) (n - k) = Some result.
Proof.
  intros Hf Hle Hp.
  assert (hasNextPage this = true) as Hn.
  { destruct k as [|j]; [by destruct Hf|].
    destruct Hf as (behind & Hb & _ & ->).
    destruct (page_at_before graphql (token this) None j n result Hp)
      as (earlier & He & Hh); [lia|congruence]. }
  split; [done|].
  rewrite <- (page_at_from_position graphql this k (n - k) Hf Hn).
  by replace (k + (n - k)) with n by lia.
Qed.

(** A lookup of a login that is on a page not yet passed, and that the
    cache object does not answer with an inherited value. *)
Lemma find_ahead this k n result :
  cache_keyed this →
  fetched graphql this k →
  (k ≤ n)%nat →
  page_at graphql (token this) None n = Some result →
  on_page target result →
  options_cache this = false ∨ inherited target = false →
  ∃ fuel s, ∀ extra,
    outcome (find (fuel + extra) graphql target this) = Resolved (Some (Found s))
    ∧ login (sponsor s) = target
    ∧ ∀ i page,
        responses graphql (requests (find (fuel + extra) graphql target this)) !! i
        = Some page →
        on_page target page →
        S i = length (responses graphql
                        (requests (find (fuel + extra) graphql target this))).
Proof.
  intros Hk Hf Hle Hp Hon Hplain.
  destruct (find_cases graphql 0 target this) as [(answer & Ho & Hget & _)|[Hmiss _]].
  - apply get_property_cases in Hget as [(hit & -> & Hc)|(_ & _ & Hi)];
      [|destruct Hplain; congruence].
    exists 0, hit. intros extra. rewrite (find_hit _ this hit) by done.
    split_and!; [done|by eapply Hk|done].
  - destruct (ahead_of_position this k n result Hf Hle Hp) as [Hn Hrel].
    destruct (find_loop_finds graphql target (n - k) this result Hn Hrel Hon)
      as (s & Hs & Hl).
    exists (S (n - k)), s. intros extra. rewrite find_miss by done.
    rewrite find_loop_more_fuel by (by rewrite Hs).
    split_and!; [done..|]. apply find_loop_stops.
Qed.
End Lookup.

(** ** The properties of the specification *)

(** The client after [getInfo("jure")] on the source of two pages: both
    pages fetched, both logins cached, pagination exhausted. *)
Lemma after_jure opts :
  getInfo 2 two_pages "jure" (new opts)
  = {| outcome := Resolved (Found <$> sponsorshipFromEdge jure_edge);
       client := {| token := opt_token opts;
                    options_cache := withdefault true (opt_cache opts);
                    cached := cache_all ∅ (decode [ghost_edge; alice_edge; jure_edge]);
                    cursor := Some "c2";
                    hasNextPage := false |};
       requests := [ {| rp_cursor := None; rp_authorization := opt_token opts |};
                     {| rp_cursor := Some "c1"; rp_authorization := opt_token opts |} ] |}.
Proof. reflexivity. Qed.

(** C3. With caching enabled, a login that is in the cache is answered with
    the cached record, the client untouched and no request sent; a second
    [getInfo] for it returns the same record, again without a request. *)
Theorem getInfo_cached fuel fuel' graphql target this hit :
  options_cache this = true →
  cached this !! target = Some hit →
  getInfo fuel graphql target this
  = {| outcome := Resolved (Some (Found hit)); client := this; requests := [] |}
  ∧ getInfo fuel' graphql target (client (getInfo fuel graphql target this))
    = {| outcome := Resolved (Some (Found hit)); client := this; requests := [] |}.
Proof.
  intros Ho Hc.
  assert (∀ f, getInfo f graphql target this
               = {| outcome := Resolved (Some (Found hit)); client := this;
                    requests := [] |}) as Hit.
  { intros f. unfold getInfo. by apply find_hit. }
  by rewrite !Hit.
Qed.

Lemma getInfo_cached_witness :
  let this := client (getInfo 2 two_pages "jure" (new default_options)) in
  ∃ hit,
    login (sponsor hit) = "alice"
    ∧ getInfo 0 two_pages "alice" this
      = {| outcome := Resolved (Some (Found hit)); client := this; requests := [] |}
    ∧ getInfo 0 two_pages "alice" (client (getInfo 0 two_pages "alice" this))
      = {| outcome := Resolved (Some (Found hit)); client := this; requests := [] |}.
Proof.
  intros this.
  destruct (sponsorshipFromEdge alice_edge) as [hit|] eqn:E; [|discriminate E].
  exists hit. split; [by injection E as <-|].
  apply (getInfo_cached 0 0 two_pages "alice" this hit); [reflexivity|].
  injection E as <-. vm_compute. reflexivity.
Defined.

(** C4. Processing a page sets the has-next-page flag and the cursor to what
    the page reports, whether or not the login is on the page; so after any
    [getInfo] the two fields are those of the last page the call received,
    and are untouched when it received none. *)
Theorem pagination_follows_last_page :
  (∀ target this result,
     hasNextPage (process_page target this result).1 = pi_hasNextPage (pageInfo result)
     ∧ cursor (process_page target this result).1 = Some (endCursor (pageInfo result)))
  ∧ (∀ fuel graphql target this,
       match last (responses graphql (requests (getInfo fuel graphql target this))) with
       | Some result =>
           hasNextPage (client (getInfo fuel graphql target this))
           = pi_hasNextPage (pageInfo result)
           ∧ cursor (client (getInfo fuel graphql target this))
             = Some (endCursor (pageInfo result))
       | None =>
           hasNextPage (client (getInfo fuel graphql target this)) = hasNextPage this
           ∧ cursor (client (getInfo fuel graphql target this)) = cursor this
       end).
Proof.
  split; [apply process_page_pagination|].
  intros fuel graphql target this. unfold getInfo.
  destruct (find_cases graphql fuel target this) as [(hit & _ & _ & ->)|[_ ->]];
    [done|]. apply find_loop_pagination.
Qed.

(** The state is updated on the page that carries the login too. *)
Example pagination_on_match :
  let run := getInfo 1 two_pages "alice" (new default_options) in
  (∃ s, outcome run = Resolved (Some (Found s)) ∧ login (sponsor s) = "alice")
  ∧ cursor (client run) = Some "c1" ∧ hasNextPage (client run) = true.
Proof. split; [eexists; split; reflexivity|split; reflexivity]. Qed.

(** C8. [flush] is a total function of the client; it empties the cache and
    puts the cursor and the flag back to their initial values, so the
    pagination of the next lookup restarts from the beginning: the lookup
    opens with a request for the first page, unless the client reads its
    cache object and the login is a name that every object inherits, which
    is answered without a request. *)
Theorem flush_resets this :
  cached (flush this) = ∅
  ∧ cursor (flush this) = None
  ∧ hasNextPage (flush this) = true
  ∧ ∀ fuel graphql target,
      head (requests (getInfo (S fuel) graphql target (flush this)))
      = if inherited target && options_cache this
        then None
        else Some {| rp_cursor := None; rp_authorization := token this |}.
Proof.
  split_and!; try done. intros fuel graphql target.
  unfold getInfo, find, has_property. cbn [flush cached options_cache].
  rewrite lookup_empty, bool_decide_eq_false_2 by (by intros [? ?]). cbn [orb].
  destruct (inherited target && options_cache this); [done|].
  cbn [find_loop hasNextPage]. unfold params_of. cbn [cursor token].
  destruct (graphql query _) as [result|]; [|done].
  by destruct (process_page _ _ result) as [this' [s|]].
Qed.

(** C10. Once the flag is false, a [getInfo] that is not answered from the
    cache (the cache is not read, or the cache object has no property of the
    login's name) resolves to [null] at once: no request, the client untouched, so
    the same holds for every later call; [flush] sets the flag again. *)
Theorem exhausted_returns_null fuel graphql target this :
  hasNextPage this = false →
  options_cache this = false ∨ has_property (cached this) target = false →
  getInfo fuel graphql target this
  = {| outcome := Resolved None; client := this; requests := [] |}
  ∧ hasNextPage (flush this) = true.
Proof.
  intros Hn Hmiss. split; [|done]. unfold getInfo.
  rewrite find_miss by done. by apply find_loop_exhausted.
Qed.

Lemma exhausted_returns_null_witness :
  let this := client (getInfo 2 two_pages "jure" (new uncached_options)) in
  on_page "alice" page1
  ∧ getInfo 5 two_pages "alice" this
    = {| outcome := Resolved None; client := this; requests := [] |}
  ∧ hasNextPage (flush this) = true.
Proof.
  intros this. split.
  - vm_compute. apply list_elem_of_here.
  - apply (exhausted_returns_null 5 two_pages "alice" this); [reflexivity|].
    left. reflexivity.
Defined.

(** C7, as the specification states it, fails: an organization e-mail that
    is present but empty gives way to the user e-mail. *)
Lemma email_precedence_counterexample :
  let edge := edge_of "c3" "S_acme" (Some both_mails) in
  orgEmail both_mails = Some EmptyString
  ∧ userEmail both_mails = Some "user@example.com"
  ∧ ∃ s, sponsorshipFromEdge edge = Some s
         ∧ email (sponsor s) = Some "user@example.com"
         ∧ email (sponsor s) ≠ orgEmail both_mails.
Proof. cbn. split_and!; try done. eexists. split_and!; done. Qed.

(** C7, amended. The decoded e-mail is the organization e-mail when that is
    present and not empty; otherwise (absent or empty) it is the user e-mail,
    and absent when the user e-mail is absent too. *)
Theorem email_precedence edge entity l :
  sponsorEntity (node edge) = Some entity →
  entity_login entity = Some l →
  ∃ s, sponsorshipFromEdge edge = Some s
       ∧ login (sponsor s) = l
       ∧ (∀ o, orgEmail entity = Some o → o ≠ EmptyString → email (sponsor s) = Some o)
       ∧ (orgEmail entity = None ∨ orgEmail entity = Some EmptyString →
          email (sponsor s) = userEmail entity)
       ∧ (orgEmail entity = None → userEmail entity = None → email (sponsor s) = None).
Proof.
  intros He Hl. unfold sponsorshipFromEdge. rewrite He. cbn. rewrite Hl.
  eexists. split; [reflexivity|]. cbn. unfold js_or, truthy. split_and!; try done.
  - intros o -> Hne. by destruct (String.eqb_spec o EmptyString).
  - by intros [->| ->].
  - by intros -> ->.
Qed.

Lemma email_precedence_witness :
  let entity := user "alice" (Some "alice@example.com") in
  ∃ s, sponsorshipFromEdge alice_edge = Some s
       ∧ login (sponsor s) = "alice"
       ∧ (∀ o, orgEmail entity = Some o → o ≠ EmptyString → email (sponsor s) = Some o)
       ∧ (orgEmail entity = None ∨ orgEmail entity = Some EmptyString →
          email (sponsor s) = userEmail entity)
       ∧ (orgEmail entity = None → userEmail entity = None → email (sponsor s) = None).
Proof.
  intros entity. apply (email_precedence alice_edge entity "alice"); reflexivity.
Defined.

(** C9. The cache-key invariant holds for a new client and is kept by
    [getInfo], [isSponsor] and [flush]. *)
Theorem cache_key_invariant :
  (∀ opts, cache_keyed (new opts))
  ∧ (∀ fuel graphql target this,
       cache_keyed this → cache_keyed (client (getInfo fuel graphql target this)))
  ∧ (∀ fuel graphql target this,
       cache_keyed this → cache_keyed (client (isSponsor fuel graphql target this)))
  ∧ (∀ this, cache_keyed this → cache_keyed (flush this)).
Proof.
  split_and!.
  - intros opts k s. cbn. by rewrite lookup_empty.
  - intros fuel graphql target this. apply find_keyed.
  - intros fuel graphql target this Hk.
    destruct (isSponsor_client graphql fuel target this) as [-> _].
    by apply find_keyed.
  - intros this _ k s. cbn. by rewrite lookup_empty.
Qed.

(** The invariant on the client that has fetched both pages of the example
    source, through [getInfo] and then [isSponsor]. *)
Lemma cache_key_invariant_witness :
  cache_keyed
    (client (isSponsor 3 two_pages "noone"
               (client (getInfo 1 two_pages "alice" (new default_options))))).
Proof.
  destruct cache_key_invariant as (Hnew & Hget & His & _).
  apply His, Hget, Hnew.
Defined.

(** Every client a program can hold satisfies the cache-key invariant. *)
Corollary reachable_keyed graphql opts this :
  reachable graphql opts this → cache_keyed this.
Proof. intros H. by apply reachable_consistent in H as [[Hk _] _]. Qed.

(** C5. A client built with [cache: false] never answers from its cache:
    every [getInfo] is the pagination loop run from the current position,
    whatever the cache holds, and opens with a request at the current cursor
    when a next page is expected. The records of every page are cached all
    the same: a page turns the cache into [cache_all] of its decoded
    records, and every record decoded from a page the call received is in
    the cache afterwards under its login. *)
Theorem cache_disabled graphql opts this fuel target :
  opt_cache opts = Some false →
  reachable graphql opts this →
  getInfo fuel graphql target this = find_loop fuel graphql target this
  ∧ (hasNextPage this = true →
     head (requests (getInfo (S fuel) graphql target this)) = Some (params_of this))
  ∧ (∀ result,
       cached (process_page target this result).1
       = cache_all (cached this) (decode (edges result)))
  ∧ (∀ page record,
       page ∈ responses graphql (requests (getInfo fuel graphql target this)) →
       record ∈ decode (edges page) →
       ∃ s, cached (client (getInfo fuel graphql target this)) !! login (sponsor record)
            = Some s
            ∧ login (sponsor s) = login (sponsor record)).
Proof.
  intros Hopt Hreach.
  apply reachable_consistent in Hreach as (_ & _ & Ho). rewrite Hopt in Ho. cbn in Ho.
  assert (∀ f, getInfo f graphql target this = find_loop f graphql target this) as Hloop.
  { intros f. unfold getInfo. apply find_miss. by left. }
  rewrite !Hloop. split_and!.
  - done.
  - intros Hn. cbn [find_loop]. rewrite Hn.
    destruct (graphql query (params_of this)) as [result|]; [|done].
    by destruct (process_page target this result) as [this' [s|]].
  - intros result. by rewrite process_page_spec.
  - apply find_loop_caches.
Qed.

(** On the source of two pages: the uncached client that has seen [alice]
    on page 1 asks for her again and goes to the transport for page 2; both
    records are in its cache all the same. *)
Lemma cache_disabled_witness :
  let this := client (getInfo 1 two_pages "alice" (new uncached_options)) in
  is_Some (cached this !! "alice")
  ∧ getInfo 3 two_pages "alice" this = find_loop 3 two_pages "alice" this
  ∧ requests (getInfo 3 two_pages "alice" this)
    = [ {| rp_cursor := Some "c1"; rp_authorization := "token" |} ]
  ∧ outcome (getInfo 3 two_pages "alice" this) = Resolved None
  ∧ is_Some (cached (client (getInfo 3 two_pages "alice" this)) !! "jure").
Proof.
  intros this.
  assert (reachable two_pages uncached_options this) as Hreach.
  { apply reach_getInfo; [apply reach_new|discriminate]. }
  destruct (cache_disabled two_pages uncached_options this 3 "alice" eq_refl Hreach)
    as (Hloop & _ & _ & _).
  split_and!; [vm_compute; eauto|exact Hloop|reflexivity|reflexivity|vm_compute; eauto].
Defined.

(** C6. An edge whose sponsor entity is absent, or has no login, decodes to
    [null]; a page processes as the page without that edge does (same cache,
    same pagination state, same match), and a lookup over a source runs as it
    does over the source without such edges: same completion, same client,
    same requests. *)
Theorem dropped_record edge :
  sponsorEntity (node edge) = None
  ∨ (∃ entity, sponsorEntity (node edge) = Some entity ∧ entity_login entity = None) →
  sponsorshipFromEdge edge = None
  ∧ (∀ target this info before after,
       process_page target this {| pageInfo := info; edges := before ++ edge :: after |}
       = process_page target this {| pageInfo := info; edges := before ++ after |})
  ∧ (∀ fuel graphql target this,
       getInfo fuel (without_dropped graphql) target this
       = getInfo fuel graphql target this).
Proof.
  intros Hno.
  assert (sponsorshipFromEdge edge = None) as Hnone.
  { unfold sponsorshipFromEdge. destruct Hno as [->|(entity & -> & Hl)]; [done|].
    cbn. by rewrite Hl. }
  split_and!; [done| |].
  - intros target this info before after.
    apply process_page_decoded; [done|]. cbn. by apply decode_drop.
  - intros fuel graphql target this. unfold getInfo, find.
    by rewrite find_loop_strip.
Qed.

Lemma dropped_record_witness :
  sponsorshipFromEdge ghost_edge = None
  ∧ (∀ target this info before after,
       process_page target this
         {| pageInfo := info; edges := before ++ ghost_edge :: after |}
       = process_page target this {| pageInfo := info; edges := before ++ after |})
  ∧ (∀ fuel graphql target this,
       getInfo fuel (without_dropped graphql) target this
       = getInfo fuel graphql target this).
Proof. apply (dropped_record ghost_edge). left. reflexivity. Defined.

(** The edge without a sponsor on page 1 of the example source neither stops
    the lookup nor reaches the cache. *)
Example ghost_is_skipped :
  let run := getInfo 2 two_pages "jure" (new default_options) in
  (∃ s, outcome run = Resolved (Some (Found s)) ∧ login (sponsor s) = "jure")
  ∧ size (cached (client run)) = 2
  ∧ is_Some (cached (client run) !! "alice")
  ∧ is_Some (cached (client run) !! "jure").
Proof.
  split; [eexists; split; reflexivity|].
  split_and!; vm_compute; eauto.
Qed.

(** C1, as the specification states it, fails: the client built with
    [cache: false] that has walked the source to its end for [jure] answers
    [null] for [alice], who is on page 1 of the source, whatever the fuel. *)
Lemma getInfo_finds_login_counterexample :
  let this := client (getInfo 2 two_pages "jure" (new uncached_options)) in
  reachable two_pages uncached_options this
  ∧ page_at two_pages (token this) None 0 = Some page1
  ∧ on_page "alice" page1
  ∧ ∀ fuel, getInfo fuel two_pages "alice" this
            = {| outcome := Resolved None; client := this; requests := [] |}.
Proof.
  intros this. split_and!.
  - apply reach_getInfo; [apply reach_new|discriminate].
  - reflexivity.
  - vm_compute. apply list_elem_of_here.
  - intros fuel. unfold getInfo. rewrite find_miss by (by left).
    by apply find_loop_exhausted.
Qed.

(** C1, amended. On a client a program can hold, a login that is on some
    page of the source is found by [getInfo] when caching is enabled, or
    when the page has not been passed yet (the client has fetched no more
    pages than lie before it; none, for a new or flushed client), provided
    that the login is not a name every object inherits when the client reads
    its cache object. The call resolves to a record with exactly that login,
    and a fetched page that carries the login is the last page the call
    fetched. *)
Theorem getInfo_finds_login graphql opts this target n result :
  reachable graphql opts this →
  page_at graphql (token this) None n = Some result →
  on_page target result →
  options_cache this = true ∨ (∃ k, fetched graphql this k ∧ (k ≤ n)%nat) →
  options_cache this = false ∨ inherited target = false →
  ∃ fuel s, ∀ extra,
    outcome (getInfo (fuel + extra) graphql target this) = Resolved (Some (Found s))
    ∧ login (sponsor s) = target
    ∧ ∀ i page,
        responses graphql (requests (getInfo (fuel + extra) graphql target this)) !! i
        = Some page →
        on_page target page →
        S i = length (responses graphql
                        (requests (getInfo (fuel + extra) graphql target this))).
Proof.
  intros Hreach Hp Hon Hcond Hplain. unfold getInfo.
  apply reachable_consistent in Hreach as ((Hk & k & Hf & Hc) & _ & _).
  destruct Hcond as [Ho|(k' & Hf' & Hle)]; [|by eapply find_ahead].
  destruct (decide (k ≤ n)%nat) as [Hle|Hgt]; [by eapply find_ahead|].
  destruct (proj2 (Hc target)) as [hit Hhit].
  { exists n, result. split_and!; [lia|done..]. }
  exists 0, hit. intros extra. rewrite (find_hit _ _ _ this hit) by done.
  split_and!; [done|by eapply Hk|done].
Qed.

Lemma getInfo_finds_login_witness :
  let this := client (getInfo 1 two_pages "alice" (new uncached_options)) in
  ∃ fuel s, ∀ extra,
    outcome (getInfo (fuel + extra) two_pages "jure" this) = Resolved (Some (Found s))
    ∧ login (sponsor s) = "jure"
    ∧ ∀ i page,
        responses two_pages (requests (getInfo (fuel + extra) two_pages "jure" this)) !! i
        = Some page →
        on_page "jure" page →
        S i = length (responses two_pages
                        (requests (getInfo (fuel + extra) two_pages "jure" this))).
Proof.
  intros this.
  apply (getInfo_finds_login two_pages uncached_options this "jure" 1 page2).
  - apply reach_getInfo; [apply reach_new|discriminate].
  - reflexivity.
  - vm_compute. apply list_elem_of_here.
  - right. exists 1. split; [|lia]. exists page1. split_and!; reflexivity.
  - left. reflexivity.
Defined.

(** C2 fails on the code. A client that reads its cache object answers a
    login that is a name every object inherits, and that is not cached, with
    the inherited value: at once, without a request, whether or not a page of
    the source carries the login. So [getInfo] does not resolve to [null]
    for such a login that is on no page, and [isSponsor] resolves to [true]
    for it. *)
Theorem getInfo_answers_inherited_name fuel graphql target this :
  options_cache this = true →
  inherited target = true →
  cached this !! target = None →
  getInfo fuel graphql target this
  = {| outcome := Resolved (Some (Inherited target)); client := this; requests := [] |}
  ∧ isSponsor fuel graphql target this
    = {| outcome := Resolved true; client := this; requests := [] |}.
Proof.
  intros Ho Hi Hc. unfold isSponsor, getInfo.
  by rewrite (find_inherited graphql target fuel this Ho Hc Hi).
Qed.

(** No page of the example source carries [constructor]; the new client
    with the default options answers it all the same. *)
Lemma getInfo_answers_inherited_name_witness :
  (∀ j page, page_at two_pages "token" None j = Some page → ¬ on_page "constructor" page)
  ∧ getInfo 5 two_pages "constructor" (new default_options)
    = {| outcome := Resolved (Some (Inherited "constructor"));
         client := new default_options; requests := [] |}
  ∧ isSponsor 5 two_pages "constructor" (new default_options)
    = {| outcome := Resolved true; client := new default_options; requests := [] |}.
Proof.
  split.
  - intros [|[|[|j]]] page; vm_compute; intros [= <-];
      intros Hin; repeat (apply elem_of_cons in Hin as [Hin|Hin]; [discriminate Hin|]);
      by apply elem_of_nil in Hin.
  - apply (getInfo_answers_inherited_name 5 two_pages "constructor" (new default_options));
      reflexivity.
Defined.

(** ** More on one page: which record is returned, which one is cached *)

(** A login that the records do not carry keeps its cache entry. *)
Lemma cache_all_lookup_other c ss k :
  k ∉ (login ∘ sponsor) <$> ss → cache_all c ss !! k = c !! k.
Proof.
  induction ss as [|x ss IH] using rev_ind; [done|].
  rewrite cache_all_snoc, fmap_app, not_elem_of_app. cbn.
  rewrite not_elem_of_cons. intros (Hss & Hx & _).
  rewrite lookup_insert_ne by done. by apply IH.
Qed.

(** A login that the records carry is cached with the last of them. *)
Lemma cache_all_lookup_last c ss k :
  k ∈ (login ∘ sponsor) <$> ss →
  ∃ pre record post,
    ss = (pre ++ record :: post)%list
    ∧ login (sponsor record) = k
    ∧ (k ∉ (login ∘ sponsor) <$> post)
    ∧ cache_all c ss !! k = Some record.
Proof.
  induction ss as [|x ss IH] using rev_ind; [by intros ?%elem_of_nil|].
  rewrite cache_all_snoc, fmap_app, elem_of_app. cbn. rewrite list_elem_of_singleton.
  destruct (decide (login (sponsor x) = k)) as [<-|Hne].
  - intros _. exists ss, x, []. rewrite lookup_insert_eq.
    split_and!; [done..| |done]. by intros ?%elem_of_nil.
  - intros [Hin|Heq]; [|by subst].
    destruct (IH Hin) as (pre & record & post & -> & Hl & Hpost & Hc).
    exists pre, record, (post ++ [x])%list. rewrite lookup_insert_ne by done.
    split_and!; [by rewrite <- app_assoc|done| |done].
    rewrite fmap_app, not_elem_of_app. split; [done|]. cbn.
    rewrite not_elem_of_cons. split; [done|]. by intros ?%elem_of_nil.
Qed.

(** The search returns the first record that carries the login. *)
Lemma array_find_first target es record :
  array_find target (sponsorshipFromEdge <$> es) = Some record →
  ∃ pre post,
    decode es = (pre ++ record :: post)%list
    ∧ login (sponsor record) = target
    ∧ (target ∉ (login ∘ sponsor) <$> pre).
Proof.
  rewrite array_find_decode.
  destruct (list_find _ (decode es)) as [[i x]|] eqn:Hfind; [|done].
  cbn. intros [= <-]. apply list_find_Some in Hfind as (Hi & Hx & Hbefore).
  exists (take i (decode es)), (drop (S i) (decode es)).
  split_and!; [by rewrite take_drop_middle|done|].
  intros (y & Hy & Hin)%list_elem_of_fmap.
  apply elem_of_take in Hin as (j & Hj & Hlt).
  by apply (Hbefore j y).
Qed.

(** ** What a lookup returns and what it leaves behind *)

Lemma find_loop_sound graphql target fuel this answer :
  outcome (find_loop fuel graphql target this) = Resolved (Some answer) →
  ∃ record, answer = Found record ∧ login (sponsor record) = target.
Proof.
  revert this. induction fuel as [|fuel IH]; intros this;
    loop_cases this; rewrite E; cbn; try done.
  - intros [= <-]. exists s. split; [done|].
    rewrite process_page_spec in F. by apply array_find_Some in F as [? _].
  - intros [= <-]. exists s. split; [done|].
    rewrite process_page_spec in F. by apply array_find_Some in F as [? _].
  - injection Hf as <-. apply IH.
Qed.

Lemma find_loop_null graphql target fuel this :
  outcome (find_loop fuel graphql target this) = Resolved None →
  hasNextPage (client (find_loop fuel graphql target this)) = false.
Proof.
  revert this. induction fuel as [|fuel IH]; intros this;
    loop_cases this; rewrite E; cbn; try done.
  injection Hf as <-. apply IH.
Qed.

(** X1. What [getInfo] resolves to, when it is not [null], is a record that
    carries the login asked for, on every client whose cache is keyed by
    login (every client a program can hold): no call answers with the record
    of another login. The one answer that is no record is the inherited
    value, given without a request by a client that reads its cache object
    for a login that is an inherited name and is not cached. *)
Theorem getInfo_sound fuel graphql target this answer :
  cache_keyed this →
  outcome (getInfo fuel graphql target this) = Resolved (Some answer) →
  (∃ record, answer = Found record ∧ login (sponsor record) = target)
  ∨ (answer = Inherited target
     ∧ options_cache this = true
     ∧ inherited target = true
     ∧ cached this !! target = None
     ∧ requests (getInfo fuel graphql target this) = []).
Proof.
  intros Hk. unfold getInfo.
  destruct (find_cases graphql fuel target this) as [(hit & Ho & Hget & ->)|[_ ->]].
  - intros [= <-].
    apply get_property_cases in Hget as [(record & -> & Hc)|(-> & Hc & Hi)].
    + left. exists record. split; [done|]. by eapply Hk.
    + by right.
  - intros Hout. left. by eapply find_loop_sound.
Qed.

Lemma getInfo_sound_witness :
  ∃ record,
    outcome (getInfo 2 two_pages "jure" (new default_options))
    = Resolved (Some (Found record))
    ∧ login (sponsor record) = "jure".
Proof.
  destruct (sponsorshipFromEdge jure_edge) as [record|] eqn:Hdec; [|discriminate Hdec].
  exists record.
  assert (outcome (getInfo 2 two_pages "jure" (new default_options))
          = Resolved (Some (Found record))) as Hout.
  { injection Hdec as <-. reflexivity. }
  split; [exact Hout|].
  destruct (getInfo_sound 2 two_pages "jure" (new default_options) (Found record))
    as [(r & [= <-] & Hl)|(Hno & _)]; [|exact Hout|exact Hl|discriminate Hno].
  intros k s. cbn. by rewrite lookup_empty.
Defined.

(** X2. When [getInfo] resolves to [null], the client is left exhausted: the
    has-next-page flag is false, so [null] is only ever answered once the
    last page has been seen. *)
Theorem getInfo_null_exhausted fuel graphql target this :
  outcome (getInfo fuel graphql target this) = Resolved None →
  hasNextPage (client (getInfo fuel graphql target this)) = false.
Proof.
  unfold getInfo.
  destruct (find_cases graphql fuel target this) as [(hit & _ & _ & ->)|[_ ->]];
    [done|]. apply find_loop_null.
Qed.

Lemma getInfo_null_exhausted_witness :
  hasNextPage (client (getInfo 2 two_pages "noone" (new default_options))) = false.
Proof.
  apply (getInfo_null_exhausted 2 two_pages "noone" (new default_options)).
  reflexivity.
Defined.

(** X3. An exhausted client is inert: whatever login is asked for, through
    [getInfo] or [isSponsor], cached or not, it sends no request and stays
    as it is. *)
Theorem exhausted_inert fuel graphql target this :
  hasNextPage this = false →
  client (getInfo fuel graphql target this) = this
  ∧ requests (getInfo fuel graphql target this) = []
  ∧ client (isSponsor fuel graphql target this) = this
  ∧ requests (isSponsor fuel graphql target this) = [].
Proof.
  intros Hn. unfold isSponsor, then_, getInfo. cbn.
  destruct (find_cases graphql fuel target this) as [(hit & _ & _ & ->)|[_ ->]];
    [done|]. by rewrite find_loop_exhausted.
Qed.

Lemma exhausted_inert_witness :
  let this := client (getInfo 2 two_pages "jure" (new default_options)) in
  client (getInfo 4 two_pages "alice" this) = this
  ∧ requests (getInfo 4 two_pages "alice" this) = []
  ∧ client (isSponsor 4 two_pages "alice" this) = this
  ∧ requests (isSponsor 4 two_pages "alice" this) = [].
Proof.
  intros this. apply (exhausted_inert 4 two_pages "alice" this). reflexivity.
Defined.

(** X4. No method changes the token or the cache option a client was built
    with, and [cache] defaults to [true]; so [flush] puts a client back
    into the state the constructor built it in. *)
Theorem flush_is_fresh graphql opts this :
  reachable graphql opts this →
  token this = opt_token opts
  ∧ options_cache this = withdefault true (opt_cache opts)
  ∧ flush this = new opts.
Proof.
  intros (_ & Ht & Ho)%reachable_consistent. split_and!; [done..|].
  unfold flush, new. by rewrite Ht, Ho.
Qed.

Lemma flush_is_fresh_witness :
  let this := client (isSponsor 2 two_pages "jure" (new default_options)) in
  token this = "token"
  ∧ options_cache this = true
  ∧ flush this = new default_options.
Proof.
  intros this. apply (flush_is_fresh two_pages default_options this).
  apply reach_isSponsor; [apply reach_new|discriminate].
Defined.

(** ** How a lookup changes the cache *)

Lemma process_page_cache_change target this result k :
  (∃ record, record ∈ decode (edges result)
             ∧ login (sponsor record) = k
             ∧ cached (process_page target this result).1 !! k = Some record)
  ∨ cached (process_page target this result).1 !! k = cached this !! k.
Proof.
  rewrite process_page_spec. cbn.
  destruct (decide (k ∈ (login ∘ sponsor) <$> decode (edges result))) as [Hin|Hout].
  - left. destruct (cache_all_lookup_last (cached this) _ k Hin)
      as (pre & record & post & Hsplit & Hl & _ & Hc).
    exists record. split_and!; [|done..]. rewrite Hsplit.
    apply elem_of_app. right. apply list_elem_of_here.
  - right. by apply cache_all_lookup_other.
Qed.

Lemma find_loop_cache_change graphql target fuel this k :
  (∃ page record,
     page ∈ responses graphql (requests (find_loop fuel graphql target this))
     ∧ record ∈ decode (edges page)
     ∧ login (sponsor record) = k
     ∧ cached (client (find_loop fuel graphql target this)) !! k = Some record)
  ∨ cached (client (find_loop fuel graphql target this)) !! k = cached this !! k.
Proof.
  revert this. induction fuel as [|fuel IH]; intros this;
    loop_cases this; rewrite E; unfold responses; cbn; try (by right);
    rewrite G; cbn.
  - destruct (process_page_cache_change target this r k) as [(record & Hin & Hl & Hc)|Hc];
      [left|by right].
    exists r, record. split_and!; [apply list_elem_of_here|done..].
  - destruct (process_page_cache_change target this r k) as [(record & Hin & Hl & Hc)|Hc];
      [left|by right].
    exists r, record. split_and!; [apply list_elem_of_here|done..].
  - injection Hf as <-.
    destruct (IH (process_page target this r).1)
      as [(page & record & Hp & Hin & Hl & Hc)|Hsame].
    + left. exists page, record. split_and!; [|done..].
      apply elem_of_cons. by right.
    + rewrite Hsame.
      destruct (process_page_cache_change target this r k)
        as [(record & Hin & Hl & Hc)|Hc]; [left|by right].
      exists r, record. split_and!; [apply list_elem_of_here|done..].
Qed.

(** X5. After a [getInfo], the cache entry of a login is either the record of a
    page the call received, carrying that login, or the entry it was before:
    a call touches the entries of the logins on the pages it fetches and no
    other. *)
Theorem getInfo_cache_change fuel graphql target this k :
  (∃ page record,
     page ∈ responses graphql (requests (getInfo fuel graphql target this))
     ∧ record ∈ decode (edges page)
     ∧ login (sponsor record) = k
     ∧ cached (client (getInfo fuel graphql target this)) !! k = Some record)
  ∨ cached (client (getInfo fuel graphql target this)) !! k = cached this !! k.
Proof.
  unfold getInfo.
  destruct (find_cases graphql fuel target this) as [(hit & _ & _ & ->)|[_ ->]];
    [by right|]. apply find_loop_cache_change.
Qed.

(** X6. A lookup never removes a login from the cache: what was cached before
    [getInfo] or [isSponsor] is cached after it. Only [flush] empties the
    cache. *)
Theorem lookup_keeps_cache fuel graphql target this k :
  is_Some (cached this !! k) →
  is_Some (cached (client (getInfo fuel graphql target this)) !! k)
  ∧ is_Some (cached (client (isSponsor fuel graphql target this)) !! k).
Proof.
  intros Hk. destruct (isSponsor_client graphql fuel target this) as [-> _].
  unfold getInfo. apply and_wlog_l; [done|].
  destruct (find_cases graphql fuel target this) as [(hit & _ & _ & ->)|[_ ->]];
    [done|].
  destruct (find_loop_cache_change graphql target fuel this k)
    as [(page & record & _ & _ & _ & ->)| ->]; eauto.
Qed.

Lemma lookup_keeps_cache_witness :
  let this := client (getInfo 1 two_pages "alice" (new uncached_options)) in
  is_Some (cached (client (getInfo 3 two_pages "jure" this)) !! "alice")
  ∧ is_Some (cached (client (isSponsor 3 two_pages "jure" this)) !! "alice").
Proof.
  intros this. apply (lookup_keeps_cache 3 two_pages "jure" this "alice").
  vm_compute. eauto.
Defined.

(** ** Where the records come from *)

(** The page that a client behind [k] pages is about to receive is page [k]
    of the source. *)
Lemma page_at_current graphql this k result :
  fetched graphql this k →
  hasNextPage this = true →
  graphql query (params_of this) = Some result →
  page_at graphql (token this) None k = Some result.
Proof.
  intros Hf Hn Hq. rewrite <- (Nat.add_0_r k).
  rewrite (page_at_from_position graphql this k 0 Hf Hn). by rewrite page_at_0.
Qed.

Lemma process_page_sourced graphql target this k result :
  fetched graphql this k →
  hasNextPage this = true →
  graphql query (params_of this) = Some result →
  sourced graphql this →
  sourced graphql (process_page target this result).1.
Proof.
  intros Hf Hn Hq Hs key record. rewrite process_page_spec. cbn.
  intros [[Hin _]|Hold]%cache_all_lookup_Some; [|by eapply Hs].
  exists k, result. split; [by apply page_at_current|done].
Qed.

Lemma find_loop_sourced graphql target fuel this k :
  fetched graphql this k →
  sourced graphql this →
  sourced graphql (client (find_loop fuel graphql target this))
  ∧ ∀ record,
      outcome (find_loop fuel graphql target this) = Resolved (Some (Found record)) →
      ∃ j page, page_at graphql (token this) None j = Some page
                ∧ record ∈ decode (edges page).
Proof.
  revert this k. induction fuel as [|fuel IH]; intros this k Hk Hs;
    loop_cases this; rewrite E; cbn; try done.
  - split; [by eapply process_page_sourced|]. intros record [= <-].
    exists k, r. split; [by apply page_at_current|].
    rewrite process_page_spec in F. by apply array_find_Some in F as [_ ?].
  - split; [by eapply process_page_sourced|]. intros record [= <-].
    exists k, r. split; [by apply page_at_current|].
    rewrite process_page_spec in F. by apply array_find_Some in F as [_ ?].
  - injection Hf as <-.
    destruct (IH (process_page target this r).1 (S k)) as [Hs' Hrec].
    + by apply process_page_fetched.
    + by eapply process_page_sourced.
    + split; [done|]. intros record Hr. destruct (Hrec record Hr) as (j & page & Hj & Hin).
      exists j, page. split; [|done]. by rewrite process_page_spec in Hj.
Qed.

Lemma reachable_sourced graphql opts this :
  reachable graphql opts this → sourced graphql this.
Proof.
  induction 1 as [|fuel target this Hreach IH _|fuel target this Hreach IH _|this _ _].
  - intros k s. cbn. by rewrite lookup_empty.
  - apply reachable_consistent in Hreach as ((_ & k & Hk & _) & _ & _).
    unfold getInfo.
    destruct (find_cases graphql fuel target this) as [(hit & _ & _ & ->)|[_ ->]];
      [done|]. by apply (find_loop_sourced graphql target fuel this k).
  - apply reachable_consistent in Hreach as ((_ & k & Hk & _) & _ & _).
    destruct (isSponsor_client graphql fuel target this) as [-> _].
    destruct (find_cases graphql fuel target this) as [(hit & _ & _ & ->)|[_ ->]];
      [done|]. by apply (find_loop_sourced graphql target fuel this k).
  - intros k s. cbn. by rewrite lookup_empty.
Qed.

(** X7. [getInfo] never makes a record up: on a client a program can hold,
    a record it resolves to is the decoding of an edge of some page of the
    source, be it answered from the cache or from a page just fetched. The
    one answer that comes from no page is the inherited value, given by a
    client that reads its cache object for a login that is an inherited
    name. *)
Theorem getInfo_from_source graphql opts this fuel target answer :
  reachable graphql opts this →
  outcome (getInfo fuel graphql target this) = Resolved (Some answer) →
  (∃ record j page edge,
     answer = Found record
     ∧ page_at graphql (token this) None j = Some page
     ∧ edge ∈ edges page
     ∧ sponsorshipFromEdge edge = Some record)
  ∨ (answer = Inherited target
     ∧ options_cache this = true
     ∧ inherited target = true
     ∧ cached this !! target = None).
Proof.
  intros Hreach Hout.
  pose proof (reachable_sourced graphql opts this Hreach) as Hs.
  apply reachable_consistent in Hreach as ((_ & k & Hk & _) & _ & _).
  unfold getInfo in Hout.
  assert (∀ record, answer = Found record →
            (∃ j page, page_at graphql (token this) None j = Some page
                       ∧ record ∈ decode (edges page)) →
            ∃ record j page edge,
              answer = Found record
              ∧ page_at graphql (token this) None j = Some page
              ∧ edge ∈ edges page
              ∧ sponsorshipFromEdge edge = Some record) as Hedge.
  { intros record -> (j & page & Hj & Hin).
    apply list_elem_of_omap in Hin as (edge & Hedge & Hdec).
    by exists record, j, page, edge. }
  destruct (find_cases graphql fuel target this)
    as [(hit & Ho & Hget & Hfind)|[_ Hfind]]; rewrite Hfind in Hout.
  - injection Hout as <-.
    apply get_property_cases in Hget as [(record & -> & Hc)|(-> & Hc & Hi)];
      [left|by right].
    apply (Hedge record); [done|]. by eapply Hs.
  - left. destruct (find_loop_sound _ _ _ _ _ Hout) as (record & -> & _).
    apply (Hedge record); [done|].
    by apply (find_loop_sourced graphql target fuel this k).
Qed.

Lemma getInfo_from_source_witness :
  let this := client (getInfo 1 two_pages "alice" (new default_options)) in
  ∃ record j page edge,
    outcome (getInfo 0 two_pages "alice" this) = Resolved (Some (Found record))
    ∧ page_at two_pages (token this) None j = Some page
    ∧ edge ∈ edges page
    ∧ sponsorshipFromEdge edge = Some record.
Proof.
  intros this.
  destruct (sponsorshipFromEdge alice_edge) as [hit|] eqn:Hdec; [|discriminate Hdec].
  assert (outcome (getInfo 0 two_pages "alice" this) = Resolved (Some (Found hit)))
    as Hout by (injection Hdec as <-; reflexivity).
  destruct (getInfo_from_source two_pages default_options this 0 "alice" (Found hit))
    as [(record & j & page & edge & [= <-] & Hj & Hin & He)|(Hno & _)];
    [|exact Hout| |discriminate Hno].
  - apply reach_getInfo; [apply reach_new|discriminate].
  - by exists hit, j, page, edge.
Defined.

(** X8. The cache of a client a program can hold is exact: the client stands
    behind some number [k] of pages of the source, and a login is cached if
    and only if one of these [k] pages carries it. *)
Theorem cache_is_fetched_pages graphql opts this :
  reachable graphql opts this →
  ∃ k, fetched graphql this k
       ∧ ∀ l, is_Some (cached this !! l) ↔
              ∃ j page, j < k ∧ page_at graphql (token this) None j = Some page
                        ∧ on_page l page.
Proof. intros ((_ & k & Hk & Hc) & _)%reachable_consistent. by exists k. Qed.

Lemma cache_is_fetched_pages_witness :
  let this := client (getInfo 1 two_pages "alice" (new default_options)) in
  ∃ k, fetched two_pages this k
       ∧ ∀ l, is_Some (cached this !! l) ↔
              ∃ j page, j < k ∧ page_at two_pages (token this) None j = Some page
                        ∧ on_page l page.
Proof.
  intros this. apply (cache_is_fetched_pages two_pages default_options this).
  apply reach_getInfo; [apply reach_new|discriminate].
Defined.

(** ** The requests of a lookup *)

Lemma find_loop_head graphql target fuel this :
  hasNextPage this = true →
  head (requests (find_loop (S fuel) graphql target this)) = Some (params_of this).
Proof.
  intros Hn. cbn [find_loop]. rewrite Hn.
  destruct (graphql query (params_of this)) as [result|]; [|done].
  by destruct (process_page target this result) as [this' [record|]].
Qed.

Lemma find_loop_chain graphql target fuel this :
  Forall (λ p, rp_authorization p = token this)
         (requests (find_loop fuel graphql target this))
  ∧ (∀ p, head (requests (find_loop fuel graphql target this)) = Some p →
          p = params_of this ∧ hasNextPage this = true)
  ∧ (∀ i p q,
       requests (find_loop fuel graphql target this) !! i = Some p →
       requests (find_loop fuel graphql target this) !! S i = Some q →
       ∃ page, graphql query p = Some page
               ∧ pi_hasNextPage (pageInfo page) = true
               ∧ ¬ on_page target page
               ∧ rp_cursor q = Some (endCursor (pageInfo page))).
Proof.
  revert this. induction fuel as [|fuel IH]; intros this;
    loop_cases this; rewrite E; cbn; try done.
  - split_and!; [by repeat constructor|by intros p [= <-]|by intros [|i]].
  - split_and!; [by repeat constructor|by intros p [= <-]|by intros [|i]].
  - split_and!; [by repeat constructor|by intros p [= <-]|by intros [|i]].
  - split_and!; [by repeat constructor|by intros p [= <-]|by intros [|i]].
  - injection Hf as <-.
    destruct (IH (process_page target this r).1) as (Htok & Hhead & Hnext).
    destruct (process_page_pagination target this r) as [Hflag Hcur].
    assert (token (process_page target this r).1 = token this) as Ht
      by (by rewrite process_page_spec).
    rewrite Ht in Htok. split_and!.
    + by constructor.
    + by intros p [= <-].
    + intros [|i] p q; cbn; [|by apply Hnext].
      intros [= <-] Hq.
      destruct (Hhead q) as [-> Hn]; [rewrite head_lookup; exact Hq|]. exists r. split_and!; [done|congruence| |].
      * rewrite process_page_spec in F. by apply array_find_None in F.
      * unfold params_of. cbn. by rewrite Hcur.
Qed.

(** X9. The requests of a [getInfo] form one chain: each carries the client's
    token; the first one carries the client's cursor and is sent only while
    a next page is expected; and a request is followed by another only when
    its page was received, reported a next page and did not carry the login,
    the follower carrying that page's end cursor. *)
Theorem getInfo_requests_chained fuel graphql target this :
  Forall (λ p, rp_authorization p = token this)
         (requests (getInfo fuel graphql target this))
  ∧ (∀ p, head (requests (getInfo fuel graphql target this)) = Some p →
          p = params_of this ∧ hasNextPage this = true)
  ∧ (∀ i p q,
       requests (getInfo fuel graphql target this) !! i = Some p →
       requests (getInfo fuel graphql target this) !! S i = Some q →
       ∃ page, graphql query p = Some page
               ∧ pi_hasNextPage (pageInfo page) = true
               ∧ ¬ on_page target page
               ∧ rp_cursor q = Some (endCursor (pageInfo page))).
Proof.
  unfold getInfo.
  destruct (find_cases graphql fuel target this) as [(hit & _ & _ & ->)|[_ ->]];
    [|apply find_loop_chain].
  cbn. split_and!; [by constructor|done|by intros [|i]].
Qed.

Lemma getInfo_requests_chained_witness :
  let run := getInfo 2 two_pages "jure" (new default_options) in
  Forall (λ p, rp_authorization p = "token") (requests run)
  ∧ (∀ p, head (requests run) = Some p →
          p = params_of (new default_options)
          ∧ hasNextPage (new default_options) = true)
  ∧ (∀ i p q,
       requests run !! i = Some p →
       requests run !! S i = Some q →
       ∃ page, two_pages query p = Some page
               ∧ pi_hasNextPage (pageInfo page) = true
               ∧ ¬ on_page "jure" page
               ∧ rp_cursor q = Some (endCursor (pageInfo page))).
Proof.
  intros run. apply (getInfo_requests_chained 2 two_pages "jure" (new default_options)).
Defined.

Lemma find_loop_rejected_iff graphql target fuel this :
  outcome (find_loop fuel graphql target this) = Rejected ↔
  ∃ p, p ∈ requests (find_loop fuel graphql target this) ∧ graphql query p = None.
Proof.
  revert this. induction fuel as [|fuel IH]; intros this;
    loop_cases this; rewrite E; cbn.
  - split; [done|]. by intros (p & ?%elem_of_nil & _).
  - split; [done|]. by intros (p & ?%elem_of_nil & _).
  - split; [|done]. intros _. exists (params_of this).
    split; [apply list_elem_of_here|done].
  - split; [done|]. intros (p & ->%list_elem_of_singleton & Hp). congruence.
  - split; [done|]. by intros (p & ?%elem_of_nil & _).
  - split; [|done]. intros _. exists (params_of this).
    split; [apply list_elem_of_here|done].
  - split; [done|]. intros (p & ->%list_elem_of_singleton & Hp). congruence.
  - injection Hf as <-. rewrite IH. split.
    + intros (p & Hin & Hp). exists p. split; [|done]. apply elem_of_cons. by right.
    + intros (p & [->|Hin]%elem_of_cons & Hp); [congruence|]. by exists p.
Qed.

Lemma find_loop_rejected_last graphql target fuel this p :
  p ∈ requests (find_loop fuel graphql target this) →
  graphql query p = None →
  last (requests (find_loop fuel graphql target this)) = Some p.
Proof.
  revert this. induction fuel as [|fuel IH]; intros this;
    loop_cases this; rewrite E; cbn; try (by intros ?%elem_of_nil).
  - by intros ->%list_elem_of_singleton.
  - intros ->%list_elem_of_singleton. congruence.
  - by intros ->%list_elem_of_singleton.
  - intros ->%list_elem_of_singleton. congruence.
  - injection Hf as <-. intros [->|Hin]%elem_of_cons Hp; [congruence|].
    rewrite last_cons. by rewrite (IH _ Hin Hp).
Qed.

Lemma find_loop_rejection graphql target fuel this :
  outcome (find_loop fuel graphql target this) = Rejected →
  last (requests (find_loop fuel graphql target this))
  = Some (params_of (client (find_loop fuel graphql target this)))
  ∧ graphql query (params_of (client (find_loop fuel graphql target this))) = None
  ∧ hasNextPage (client (find_loop fuel graphql target this)) = true
  ∧ ∀ page, page ∈ responses graphql (requests (find_loop fuel graphql target this)) →
            ¬ on_page target page.
Proof.
  revert this. induction fuel as [|fuel IH]; intros this;
    loop_cases this; rewrite E; unfold responses; cbn; try done.
  - intros _. rewrite G. split_and!; try done. by intros page ?%elem_of_nil.
  - intros _. rewrite G. split_and!; try done. by intros page ?%elem_of_nil.
  - injection Hf as <-. intros Hrej.
    destruct (IH _ Hrej) as (Hlast & Hq & Hn & Hpages).
    rewrite last_cons, Hlast, G. split_and!; try done. cbn.
    intros page [->|Hin]%elem_of_cons; [|by apply Hpages].
    rewrite process_page_spec in F. by apply array_find_None in F.
Qed.

(** X11. When the transport rejects a request of [getInfo], the call
    rejects, and so does [isSponsor]: nothing catches the rejection. The
    rejected request is the last one of the call, the client stays where
    that request was sent from, with the pages received before it taken in,
    and a later [getInfo] for the same login, over any transport, opens with
    that very request: no page is skipped and none is fetched again. *)
Theorem getInfo_retry fuel graphql target this p :
  p ∈ requests (getInfo fuel graphql target this) →
  graphql query p = None →
  outcome (getInfo fuel graphql target this) = Rejected
  ∧ outcome (isSponsor fuel graphql target this) = Rejected
  ∧ last (requests (getInfo fuel graphql target this)) = Some p
  ∧ params_of (client (getInfo fuel graphql target this)) = p
  ∧ ∀ fuel' graphql',
      head (requests (getInfo (S fuel') graphql' target
                        (client (getInfo fuel graphql target this))))
      = Some p.
Proof.
  unfold isSponsor, then_, getInfo. cbn.
  destruct (find_cases graphql fuel target this)
    as [(hit & _ & _ & ->)|[Hmiss ->]]; [by intros ?%elem_of_nil|].
  intros Hin Hp.
  assert (outcome (find_loop fuel graphql target this) = Rejected) as Hrej.
  { apply find_loop_rejected_iff. by exists p. }
  destruct (find_loop_rejection _ _ _ _ Hrej) as (Hlast & Hq & Hn & Hpages).
  pose proof (find_loop_rejected_last _ _ _ _ _ Hin Hp) as Hlast'.
  rewrite Hlast in Hlast'. injection Hlast' as Hpos.
  rewrite Hrej. split_and!; [done..|by rewrite Hlast, Hpos|done|].
  intros fuel' graphql'. rewrite <- Hpos.
  rewrite find_miss; [by apply find_loop_head|].
  destruct (find_loop_token graphql target fuel this) as [_ ->].
  destruct Hmiss as [Ho|Hc]; [by left|right].
  apply has_property_false in Hc as [Hc Hi]. apply has_property_false.
  split; [|done].
  destruct (find_loop_cache_change graphql target fuel this target)
    as [(page & record & Hpage & Hrec & Hl & _)| ->]; [|done].
  destruct (Hpages page Hpage). rewrite <- Hl.
  by apply (list_elem_of_fmap_2 (login ∘ sponsor)).
Qed.

(** The source of two pages, with the second page unreachable. *)
Lemma getInfo_retry_witness :
  let flaky : Transport :=
    λ document params, if rp_cursor params is None then two_pages document params else None in
  let run := getInfo 2 flaky "jure" (new default_options) in
  let p := {| rp_cursor := Some "c1"; rp_authorization := "token" |} in
  outcome run = Rejected
  ∧ outcome (isSponsor 2 flaky "jure" (new default_options)) = Rejected
  ∧ last (requests run) = Some p
  ∧ params_of (client run) = p
  ∧ ∀ fuel' graphql',
      head (requests (getInfo (S fuel') graphql' "jure" (client run))) = Some p.
Proof.
  intros flaky run p. apply (getInfo_retry 2 flaky "jure" (new default_options) p).
  - vm_compute. apply list_elem_of_further, list_elem_of_here.
  - reflexivity.
Defined.

Lemma process_page_first_last target this result first :
  (process_page target this result).2 = Some first →
  ∃ final pre post pre' post',
    decode (edges result) = (pre ++ first :: post)%list
    ∧ (target ∉ (login ∘ sponsor) <$> pre)
    ∧ login (sponsor first) = target
    ∧ decode (edges result) = (pre' ++ final :: post')%list
    ∧ (target ∉ (login ∘ sponsor) <$> post')
    ∧ login (sponsor final) = target
    ∧ cached (process_page target this result).1 !! target = Some final.
Proof.
  rewrite process_page_spec. cbn. intros Hfind.
  destruct (array_find_first _ _ _ Hfind) as (pre & post & Hsplit & Hl & Hpre).
  assert (target ∈ (login ∘ sponsor) <$> decode (edges result)) as Hon.
  { rewrite Hsplit, <- Hl. apply (list_elem_of_fmap_2 (login ∘ sponsor)).
    apply elem_of_app. right. apply list_elem_of_here. }
  destruct (cache_all_lookup_last (cached this) _ target Hon)
    as (pre' & final & post' & Hsplit' & Hl' & Hpost' & Hc).
  by exists final, pre, post, pre', post'.
Qed.

Lemma find_loop_first_last graphql target fuel this first :
  outcome (find_loop fuel graphql target this) = Resolved (Some (Found first)) →
  ∃ result final pre post pre' post',
    last (responses graphql (requests (find_loop fuel graphql target this))) = Some result
    ∧ decode (edges result) = (pre ++ first :: post)%list
    ∧ (target ∉ (login ∘ sponsor) <$> pre)
    ∧ login (sponsor first) = target
    ∧ decode (edges result) = (pre' ++ final :: post')%list
    ∧ (target ∉ (login ∘ sponsor) <$> post')
    ∧ login (sponsor final) = target
    ∧ cached (client (find_loop fuel graphql target this)) !! target = Some final.
Proof.
  revert this. induction fuel as [|fuel IH]; intros this;
    loop_cases this; rewrite E; unfold responses; cbn; try done.
  - intros [= <-]. rewrite G. cbn.
    destruct (process_page_first_last target this r s F)
      as (final & pre & post & pre' & post' & Hrest).
    by exists r, final, pre, post, pre', post'.
  - intros [= <-]. rewrite G. cbn.
    destruct (process_page_first_last target this r s F)
      as (final & pre & post & pre' & post' & Hrest).
    by exists r, final, pre, post, pre', post'.
  - injection Hf as <-. intros Hout. rewrite G. cbn. rewrite last_cons.
    destruct (IH _ Hout)
      as (result & final & pre & post & pre' & post' & Hlast & Hrest).
    unfold responses in Hlast. rewrite Hlast.
    by exists result, final, pre, post, pre', post'.
Qed.

(** X12. When [getInfo] finds the login on a page that it fetched,
    whichever page of the call, that page is the last one the call received;
    the call resolves to the first record of the page that carries the login,
    while the cache is left with the last record of the page that does. When
    the page carries the login twice, these are two records. *)
Theorem getInfo_first_cached_last fuel graphql target this first :
  outcome (getInfo fuel graphql target this) = Resolved (Some (Found first)) →
  requests (getInfo fuel graphql target this) ≠ [] →
  ∃ result final pre post pre' post',
    last (responses graphql (requests (getInfo fuel graphql target this))) = Some result
    ∧ decode (edges result) = (pre ++ first :: post)%list
    ∧ (target ∉ (login ∘ sponsor) <$> pre)
    ∧ login (sponsor first) = target
    ∧ decode (edges result) = (pre' ++ final :: post')%list
    ∧ (target ∉ (login ∘ sponsor) <$> post')
    ∧ login (sponsor final) = target
    ∧ cached (client (getInfo fuel graphql target this)) !! target = Some final.
Proof.
  unfold getInfo.
  destruct (find_cases graphql fuel target this) as [(hit & _ & _ & ->)|[_ ->]];
    [done|].
  intros Hout _. by apply find_loop_first_last.
Qed.

(** The login twice on the second page of a call. *)
Lemma getInfo_first_cached_last_witness :
  let later : Transport :=
    λ document params, if rp_cursor params is None then Some page1 else Some twin_page in
  ∃ first final,
    id first = "S_old" ∧ id final = "S_new"
    ∧ outcome (getInfo 2 later "jure" (new default_options)) = Resolved (Some (Found first))
    ∧ length (requests (getInfo 2 later "jure" (new default_options))) = 2
    ∧ cached (client (getInfo 2 later "jure" (new default_options))) !! "jure"
      = Some final.
Proof.
  intros later.
  destruct (sponsorshipFromEdge (edge_of "c1" "S_old" (Some (user "jure" None))))
    as [first|] eqn:Hdec; [|discriminate Hdec].
  assert (outcome (getInfo 2 later "jure" (new default_options))
          = Resolved (Some (Found first))) as Hout
    by (injection Hdec as <-; reflexivity).
  destruct (getInfo_first_cached_last 2 later "jure" (new default_options) first Hout)
    as (result & final & pre & post & pre' & post' & _ & _ & _ & _ & _ & _ & _ & Hc);
    [discriminate|].
  exists first, final. split_and!; [| |exact Hout|reflexivity|exact Hc].
  - by injection Hdec as <-.
  - vm_compute in Hc. by injection Hc as <-.
Defined.

(** On the page with the login twice, two [getInfo] calls in a row answer
    with two different records: the first from the page, the second from the
    cache. *)
Example twins_differ :
  let first_run := getInfo 1 twins "jure" (new default_options) in
  let second_run := getInfo 1 twins "jure" (client first_run) in
  (∃ a b, outcome first_run = Resolved (Some (Found a))
          ∧ outcome second_run = Resolved (Some (Found b))
          ∧ id a = "S_old" ∧ id b = "S_new")
  ∧ requests second_run = [].
Proof. split; [do 2 eexists; split_and!; reflexivity|reflexivity]. Qed.

(** ** How far a lookup goes *)

Lemma find_loop_count graphql target m this result :
  hasNextPage this = true →
  page_at graphql (token this) (cursor this) m = Some result →
  on_page target result ∨ pi_hasNextPage (pageInfo result) = false →
  (∀ j page, j < m → page_at graphql (token this) (cursor this) j = Some page →
             ¬ on_page target page) →
  length (requests (find_loop (S m) graphql target this)) = S m
  ∧ outcome (find_loop (S m) graphql target this) ≠ Diverged
  ∧ outcome (find_loop (S m) graphql target this) ≠ Rejected
  ∧ cursor (client (find_loop (S m) graphql target this))
    = Some (endCursor (pageInfo result)).
Proof.
  revert this. induction m as [|m IH]; intros this Hn Hp Hstop Hbefore;
    pose proof Hp as Hp0;
    apply page_at_inv in Hp as (first & Hfirst & Hrest);
    loop_cases this; try congruence; try (unfold params_of in G; congruence);
    rewrite E; cbn;
    unfold params_of in G; rewrite Hfirst in G; injection G as <-.
  - subst first. by rewrite process_page_spec.
  - subst first. injection Hf as <-.
    destruct Hstop as [Hon|Hlast].
    { rewrite process_page_spec in F. by apply array_find_None in F. }
    rewrite find_loop_exhausted by (by rewrite process_page_spec).
    by rewrite process_page_spec.
  - destruct (Hbefore 0 first); [lia|by rewrite page_at_0|].
    rewrite process_page_spec in F. apply array_find_Some in F as [<- Hin].
    by apply (list_elem_of_fmap_2 (login ∘ sponsor)).
  - injection Hf as <-. destruct Hrest as [Hnext Hrest].
    destruct (IH (process_page target this first).1) as (Hlen & Hd & Hr & Hc);
      try (rewrite process_page_spec; cbn; done); [done| |].
    + rewrite process_page_spec. cbn. intros j page Hj Hpage.
      apply (Hbefore (S j)); [lia|].
      rewrite <- Hpage.
      apply (page_at_add graphql (token this) (cursor this) 0 j first);
        [by rewrite page_at_0|done].
    + by rewrite Hlen.
Qed.



(** ** Logins on no page, and [isSponsor] *)

(** Two runs of the loop that settle are the same run. *)
Lemma find_loop_settled_eq graphql target a b this :
  outcome (find_loop a graphql target this) ≠ Diverged →
  outcome (find_loop b graphql target this) ≠ Diverged →
  find_loop a graphql target this = find_loop b graphql target this.
Proof.
  intros Ha Hb. destruct (decide (a ≤ b)%nat) as [Hle|Hgt].
  - replace b with (a + (b - a)) by lia. by rewrite find_loop_more_fuel.
  - replace a with (b + (a - b)) by lia. by rewrite find_loop_more_fuel.
Qed.

Section Membership.
Variable graphql : Transport.
Variable opts : SponsorsOptions.
Variable target : string.

(** With caching enabled, a login on some page of the source is found,
    when it is not an inherited name. *)
Lemma find_present this n result :
  reachable graphql opts this →
  options_cache this = true →
  inherited target = false →
  page_at graphql (token this) None n = Some result →
  on_page target result →
  ∃ fuel record, ∀ extra,
    outcome (find (fuel + extra) graphql target this) = Resolved (Some (Found record)).
Proof.
  intros ((Hk & k & Hf & Hc) & _ & _)%reachable_consistent Ho Hi Hp Hon.
  destruct (decide (k ≤ n)%nat) as [Hle|Hgt].
  - destruct (find_ahead graphql target this k n result Hk Hf Hle Hp Hon)
      as (fuel & record & Hrun); [by right|].
    exists fuel, record. intros extra. by destruct (Hrun extra) as [? _].
  - destruct (proj2 (Hc target)) as [hit Hhit].
    { exists n, result. split_and!; [lia|done..]. }
    exists 0, hit. intros extra. by rewrite (find_hit _ _ _ this hit).
Qed.

(** Over a source that ends with page [n], a login on no page, which the
    cache object does not answer either, is answered with [null], the
    remaining pages having been fetched. *)
Lemma find_absent this n last_page :
  reachable graphql opts this →
  options_cache this = false ∨ inherited target = false →
  page_at graphql (token this) None n = Some last_page →
  pi_hasNextPage (pageInfo last_page) = false →
  (∀ j page, page_at graphql (token this) None j = Some page → ¬ on_page target page) →
  ∃ fuel, ∀ extra,
    outcome (find (fuel + extra) graphql target this) = Resolved None
    ∧ hasNextPage (client (find (fuel + extra) graphql target this)) = false
    ∧ fetched graphql (client (find (fuel + extra) graphql target this)) (S n)
    ∧ ∀ k, fetched graphql this k → hasNextPage this = true →
           length (requests (find (fuel + extra) graphql target this)) = S n - k.
Proof.
  intros ((Hk & k & Hf & Hc) & _ & _)%reachable_consistent Hplain Hp Hlast Hnone.
  assert (options_cache this = false ∨ has_property (cached this) target = false)
    as Hmiss.
  { destruct Hplain as [Ho|Hi]; [by left|right]. apply has_property_false.
    split; [|done]. apply eq_None_not_Some.
    intros (j & page & _ & Hj & Hon)%Hc. by eapply Hnone. }
  destruct (hasNextPage this) eqn:Hn.
  2:{ exists 0. intros extra. rewrite find_miss by done.
      rewrite find_loop_exhausted by done. cbn. split_and!; [done..| |done].
      destruct k as [|j]; [destruct Hf; congruence|].
      destruct Hf as (behind & Hb & Hcur & Hflag).
      destruct (decide (j = n)) as [->|Hne]; [by exists behind|].
      destruct (decide (j < n)) as [Hlt|Hge].
      - destruct (page_at_before graphql (token this) None j n last_page Hp Hlt)
          as (earlier & He & Hh). congruence.
      - destruct (page_at_before graphql (token this) None n j behind Hb)
          as (earlier & He & Hh); [lia|congruence]. }
  assert (∀ k', fetched graphql this k' →
            outcome (find_loop (S (n - k')) graphql target this) = Resolved None
            ∧ hasNextPage (client (find_loop (S (n - k')) graphql target this)) = false
            ∧ length (requests (find_loop (S (n - k')) graphql target this)) = S n - k'
            ∧ cursor (client (find_loop (S (n - k')) graphql target this))
              = Some (endCursor (pageInfo last_page))) as Hfrom.
  { intros k' Hf'.
    pose proof (fetched_within graphql this k' n last_page Hf' Hn Hp Hlast) as Hle.
    destruct (ahead_of_position graphql this k' n last_page Hf' Hle Hp)
      as [_ Hrel].
    assert (∀ j page, page_at graphql (token this) (cursor this) j = Some page →
                      ¬ on_page target page) as Hnone'.
    { intros j page Hj. apply (Hnone (k' + j)).
      by rewrite (page_at_from_position graphql this k' j Hf' Hn). }
    destruct (find_loop_exhausts graphql target (n - k') this last_page Hn Hrel Hlast Hnone')
      as (Ho & Hh & Hlen).
    destruct (find_loop_count graphql target (n - k') this last_page Hn Hrel)
      as (_ & _ & _ & Hcur); [by right|by eauto|].
    split_and!; [done..| |done]. rewrite Hlen. lia. }
  exists (S (n - k)). intros extra. rewrite find_miss by done.
  destruct (Hfrom k Hf) as (Ho & Hh & Hlen & Hcur).
  rewrite find_loop_more_fuel by (by rewrite Ho). split_and!; [done..| |].
  - exists last_page. destruct (find_loop_token graphql target (S (n - k)) this) as [-> _].
    split_and!; [done..|]. by rewrite Hh.
  - intros k' Hf' _. destruct (Hfrom k' Hf') as (Ho' & _ & Hlen' & _).
    rewrite <- Hlen'. f_equal. f_equal.
    apply find_loop_settled_eq; by rewrite ?Ho, ?Ho'.
Qed.
End Membership.

(** X14. On a client built with caching enabled, over a source that ends,
    [isSponsor] decides whether a login is on a page of the source, for
    every login that is not a name every object inherits: it resolves to
    [true] when some page carries the login and to [false] when none does,
    wherever the shared pagination stands. *)
Theorem isSponsor_decides graphql opts this target n last_page :
  reachable graphql opts this →
  options_cache this = true →
  inherited target = false →
  page_at graphql (token this) None n = Some last_page →
  pi_hasNextPage (pageInfo last_page) = false →
  ((∃ j page, page_at graphql (token this) None j = Some page ∧ on_page target page) →
   ∃ fuel, ∀ extra,
     outcome (isSponsor (fuel + extra) graphql target this) = Resolved true)
  ∧ ((∀ j page, page_at graphql (token this) None j = Some page → ¬ on_page target page) →
     ∃ fuel, ∀ extra,
       outcome (isSponsor (fuel + extra) graphql target this) = Resolved false).
Proof.
  intros Hreach Ho Hi Hp Hlast. unfold isSponsor, then_. cbn. split.
  - intros (j & page & Hj & Hon).
    destruct (find_present graphql opts target this j page Hreach Ho Hi Hj Hon)
      as (fuel & record & Hrun).
    exists fuel. intros extra. by rewrite Hrun.
  - intros Hnone.
    destruct (find_absent graphql opts target this n last_page Hreach) as (fuel & Hrun);
      [by right|done..|].
    exists fuel. intros extra. by destruct (Hrun extra) as [-> _].
Qed.

(** The client of the test suite: [jure] is a sponsor, [noone] is not, and
    the answer for [alice] comes after the pagination has been used up. *)
Lemma isSponsor_decides_witness :
  let this := client (isSponsor 2 two_pages "jure" (new default_options)) in
  (∃ fuel, ∀ extra,
     outcome (isSponsor (fuel + extra) two_pages "alice" this) = Resolved true)
  ∧ (∃ fuel, ∀ extra,
       outcome (isSponsor (fuel + extra) two_pages "noone" this) = Resolved false).
Proof.
  intros this.
  assert (reachable two_pages default_options this) as Hreach.
  { apply reach_isSponsor; [apply reach_new|discriminate]. }
  split.
  - apply (isSponsor_decides two_pages default_options this "alice" 1 page2 Hreach);
      try reflexivity.
    exists 0, page1. split; [reflexivity|]. vm_compute. apply list_elem_of_here.
  - apply (isSponsor_decides two_pages default_options this "noone" 1 page2 Hreach);
      try reflexivity.
    intros [|[|[|j]]] page; vm_compute; intros [= <-];
      intros Hin; repeat (apply elem_of_cons in Hin as [Hin|Hin]; [discriminate Hin|]);
      by apply elem_of_nil in Hin.
Defined.

(** X18. On a client a program can hold, over a source that ends with page
    [n], [getInfo] for a login that is on no page of the source, and that
    the cache object does not answer as an inherited name, resolves to
    [null] on any fuel from some bound on, after it has fetched the pages
    that were left: one request for each of them, the client left behind the
    last page with the has-next-page flag false. *)
Theorem getInfo_absent_login graphql opts this target n last_page :
  reachable graphql opts this →
  options_cache this = false ∨ inherited target = false →
  page_at graphql (token this) None n = Some last_page →
  pi_hasNextPage (pageInfo last_page) = false →
  (∀ j page, page_at graphql (token this) None j = Some page → ¬ on_page target page) →
  ∃ fuel, ∀ extra,
    outcome (getInfo (fuel + extra) graphql target this) = Resolved None
    ∧ hasNextPage (client (getInfo (fuel + extra) graphql target this)) = false
    ∧ fetched graphql (client (getInfo (fuel + extra) graphql target this)) (S n)
    ∧ ∀ k, fetched graphql this k → hasNextPage this = true →
           length (requests (getInfo (fuel + extra) graphql target this)) = S n - k.
Proof. unfold getInfo. by apply find_absent. Qed.

Lemma getInfo_absent_login_witness :
  let this := client (getInfo 1 two_pages "alice" (new default_options)) in
  ∃ fuel, ∀ extra,
    outcome (getInfo (fuel + extra) two_pages "noone" this) = Resolved None
    ∧ hasNextPage (client (getInfo (fuel + extra) two_pages "noone" this)) = false
    ∧ fetched two_pages (client (getInfo (fuel + extra) two_pages "noone" this)) 2
    ∧ ∀ k, fetched two_pages this k → hasNextPage this = true →
           length (requests (getInfo (fuel + extra) two_pages "noone" this)) = 2 - k.
Proof.
  intros this.
  apply (getInfo_absent_login two_pages default_options this "noone" 1 page2).
  - apply reach_getInfo; [apply reach_new|discriminate].
  - right. reflexivity.
  - reflexivity.
  - reflexivity.
  - intros [|[|[|j]]] page; vm_compute; intros [= <-];
      intros H; repeat (apply elem_of_cons in H as [H|H]; [discriminate H|]);
      by apply elem_of_nil in H.
Defined.

(** ** Lookups one after the other *)

Lemma find_loop_pages graphql target fuel this k :
  fetched graphql this k →
  (∀ i page,
     responses graphql (requests (find_loop fuel graphql target this)) !! i = Some page →
     page_at graphql (token this) None (k + i) = Some page)
  ∧ fetched graphql (client (find_loop fuel graphql target this))
      (k + length (responses graphql (requests (find_loop fuel graphql target this)))).
Proof.
  revert this k. induction fuel as [|fuel IH]; intros this k Hk;
    loop_cases this; rewrite E; unfold responses; cbn;
    try (rewrite Nat.add_0_r; by split);
    rewrite G; cbn; try (rewrite Nat.add_0_r; by split).
  - split.
    + intros [|i] page; [|done]. intros [= <-]. rewrite Nat.add_0_r.
      by apply page_at_current.
    + rewrite Nat.add_1_r. by apply process_page_fetched.
  - split.
    + intros [|i] page; [|done]. intros [= <-]. rewrite Nat.add_0_r.
      by apply page_at_current.
    + rewrite Nat.add_1_r. by apply process_page_fetched.
  - injection Hf as <-.
    destruct (IH (process_page target this r).1 (S k)) as [Hpages Hpos];
      [by apply process_page_fetched|].
    assert (token (process_page target this r).1 = token this) as Ht
      by (by rewrite process_page_spec).
    rewrite Ht in Hpages. unfold responses in Hpages, Hpos. split.
    + intros [|i] page; cbn.
      * intros [= <-]. rewrite Nat.add_0_r. by apply page_at_current.
      * intros Hi. rewrite Nat.add_succ_r. by apply Hpages.
    + by rewrite Nat.add_succ_r.
Qed.

(** X15. Lookups share one position in the source: a [getInfo] on a client that
    stands behind [k] pages receives the pages [k], [k + 1], ... of the
    source, in this order and each once, and leaves the client behind the
    last page it received. Between two flushes no page is fetched twice and
    none is skipped. *)
Theorem getInfo_resumes fuel graphql target this k :
  fetched graphql this k →
  (∀ i page,
     responses graphql (requests (getInfo fuel graphql target this)) !! i = Some page →
     page_at graphql (token this) None (k + i) = Some page)
  ∧ fetched graphql (client (getInfo fuel graphql target this))
      (k + length (responses graphql (requests (getInfo fuel graphql target this)))).
Proof.
  intros Hk. unfold getInfo.
  destruct (find_cases graphql fuel target this) as [(hit & _ & _ & ->)|[_ ->]];
    [|by apply find_loop_pages].
  cbn. rewrite Nat.add_0_r. by split.
Qed.

Lemma getInfo_resumes_witness :
  let this := client (getInfo 1 two_pages "alice" (new uncached_options)) in
  (∀ i page,
     responses two_pages (requests (getInfo 3 two_pages "alice" this)) !! i = Some page →
     page_at two_pages (token this) None (1 + i) = Some page)
  ∧ fetched two_pages (client (getInfo 3 two_pages "alice" this))
      (1 + length (responses two_pages (requests (getInfo 3 two_pages "alice" this)))).
Proof.
  intros this. apply (getInfo_resumes 3 two_pages "alice" this 1).
  exists page1. split_and!; reflexivity.
Defined.

Lemma find_loop_found_cached graphql target fuel this record :
  outcome (find_loop fuel graphql target this) = Resolved (Some record) →
  is_Some (cached (client (find_loop fuel graphql target this)) !! target).
Proof.
  revert this. induction fuel as [|fuel IH]; intros this;
    loop_cases this; rewrite E; cbn; try done.
  - intros _. rewrite process_page_spec in F |- *. cbn in *.
    apply array_find_Some in F as [<- Hin]. apply cache_all_is_Some. left.
    by apply (list_elem_of_fmap_2 (login ∘ sponsor)).
  - intros _. rewrite process_page_spec in F |- *. cbn in *.
    apply array_find_Some in F as [<- Hin]. apply cache_all_is_Some. left.
    by apply (list_elem_of_fmap_2 (login ∘ sponsor)).
  - injection Hf as <-. apply IH.
Qed.

(** X16. With caching enabled, a login for which [getInfo] has resolved to
    a record is answered from the cache from then on: asking again resolves
    to a record of that login without a request and without a change to the
    client, over any transport. (The record can be another one than the
    first answer when the page carried the login twice.) *)
Theorem getInfo_repeat fuel fuel' graphql graphql' target this record :
  options_cache this = true →
  outcome (getInfo fuel graphql target this) = Resolved (Some (Found record)) →
  ∃ again,
    getInfo fuel' graphql' target (client (getInfo fuel graphql target this))
    = {| outcome := Resolved (Some (Found again));
         client := client (getInfo fuel graphql target this);
         requests := [] |}
    ∧ (cache_keyed this → login (sponsor again) = target).
Proof.
  intros Ho Hout. unfold getInfo in *.
  assert (is_Some (cached (client (find fuel graphql target this)) !! target)) as [again Hc].
  { destruct (find_cases graphql fuel target this)
      as [(hit & _ & Hget & Hfind)|[_ Hfind]]; rewrite Hfind in Hout |- *.
    - injection Hout as ->.
      apply get_property_cases in Hget as [(s & [= <-] & Hc)|(Hno & _)];
        [by exists record|discriminate Hno].
    - by eapply find_loop_found_cached. }
  exists again. split.
  - apply find_hit; [|done]. destruct (find_token graphql fuel target this) as [_ ->].
    done.
  - intros Hk. by apply (find_keyed graphql fuel target this Hk target again).
Qed.

Lemma getInfo_repeat_witness :
  let run := getInfo 2 two_pages "jure" (new default_options) in
  ∃ again,
    getInfo 0 endless "jure" (client run)
    = {| outcome := Resolved (Some (Found again)); client := client run; requests := [] |}
    ∧ (cache_keyed (new default_options) → login (sponsor again) = "jure").
Proof.
  intros run.
  destruct (sponsorshipFromEdge jure_edge) as [record|] eqn:Hdec; [|discriminate Hdec].
  apply (getInfo_repeat 2 0 two_pages endless "jure" (new default_options) record).
  - reflexivity.
  - injection Hdec as <-. reflexivity.
Defined.

(** ** A source that never ends *)

Lemma find_loop_diverges graphql target fuel this :
  (∀ p, ∃ page, graphql query p = Some page
                ∧ pi_hasNextPage (pageInfo page) = true
                ∧ ¬ on_page target page) →
  hasNextPage this = true →
  outcome (find_loop fuel graphql target this) = Diverged
  ∧ length (requests (find_loop fuel graphql target this)) = fuel.
Proof.
  intros Hsrc. revert this. induction fuel as [|fuel IH]; intros this Hn;
    destruct (Hsrc (params_of this)) as (page & Hq & Hnext & Hoff);
    loop_cases this; try congruence; rewrite E; cbn; try done;
    rewrite G in Hq; injection Hq as ->.
  - destruct Hoff.
    rewrite process_page_spec in F. apply array_find_Some in F as [<- Hin].
    by apply (list_elem_of_fmap_2 (login ∘ sponsor)).
  - destruct Hoff.
    rewrite process_page_spec in F. apply array_find_Some in F as [<- Hin].
    by apply (list_elem_of_fmap_2 (login ∘ sponsor)).
  - injection Hf as <-.
    destruct (IH (process_page target this page).1) as [-> ->]; [|done].
    by rewrite process_page_spec.
Qed.

(** X17. The loop has no bound of its own: over a source whose every page
    reports a next page and does not carry the login, a [getInfo] that is
    not answered from the cache object (the client does not read it, or it
    has no property of the login's name, own or inherited) never settles. However many iterations it is given, it
    has sent one request in each and is still running. *)
Theorem getInfo_never_settles graphql target fuel this :
  (∀ p, ∃ page, graphql query p = Some page
                ∧ pi_hasNextPage (pageInfo page) = true
                ∧ ¬ on_page target page) →
  hasNextPage this = true →
  options_cache this = false ∨ has_property (cached this) target = false →
  outcome (getInfo fuel graphql target this) = Diverged
  ∧ length (requests (getInfo fuel graphql target this)) = fuel.
Proof.
  intros Hsrc Hn Hmiss. unfold getInfo. rewrite find_miss by done.
  by apply find_loop_diverges.
Qed.

Lemma getInfo_never_settles_witness :
  outcome (getInfo 40 endless "jure" (new default_options)) = Diverged
  ∧ length (requests (getInfo 40 endless "jure" (new default_options))) = 40.
Proof.
  apply (getInfo_never_settles endless "jure" 40 (new default_options)).
  - intros p. exists page1. split_and!; [reflexivity..|].
    vm_compute. intros Hin.
    repeat (apply elem_of_cons in Hin as [Hin|Hin]; [discriminate Hin|]).
    by apply elem_of_nil in Hin.
  - reflexivity.
  - right. reflexivity.
Defined.
